(** * Clustering engine of [app.py]: cosine k-means and silhouette model selection

    The two functions of [src/app.py] that carry the algorithmic content,
    [find_optimal_clusters] (lines 55-70) and [perform_clustering]
    (lines 73-83), are embedded here over IEEE-754 binary64 numbers
    (Rocq's primitive [float], the element type of the NumPy arrays the code
    works on).  A matrix is the list of its rows.

    The code calls into NumPy and scikit-learn.  What these calls do is
    modelled in the modules [Np] and [Sk]:
    - [X[idx]], [X[labels == j]], [.mean(axis=0)], [np.all(A == B)],
      [np.argmin], [np.argmax] and [np.clip] follow NumPy, NaN handling
      included; the mean of an empty selection is [0/0] in every column;
    - [cosine_distances] follows scikit-learn: both arguments are validated
      (no NaN or infinity, at least one sample and one feature, equal widths),
      rows are divided by their Euclidean norm with norms below [10 * eps]
      replaced by 1, and the distance is [1 - similarity] clipped to [0, 2];
    - sums are accumulated from left to right; the libraries do not fix the
      order, so the last bits of a distance may differ from theirs.
    Every exception is a [ValueError] of one of these calls; the code defines
    no exception of its own.

    The pseudo-random generator behind [np.random.seed] and
    [np.random.choice], which is global mutable state, and the scorer
    [silhouette_score] are parameters of the section [Engine]; the generator
    state is threaded through the two functions. *)

From Stdlib Require Import List ZArith Lia Bool Arith PeanoNat.
From Stdlib Require Import Permutation Sorted.
From Stdlib Require String Ascii.
From Stdlib Require Import Floats.
From Stdlib Require Uint63.
Import ListNotations.

Set Implicit Arguments.

(** ** Exceptions and results *)

(** Every exception the two functions can raise comes from a library call and
    is a Python [ValueError]; the constructors record which check raised it. *)
Inductive error : Type :=
| EmptyPopulation      (* np.random.choice: population of 0 with size <> 0 *)
| SampleLargerThanPopulation (* np.random.choice: size > population, replace=False *)
| NegativeDimensions   (* np.random.choice: size < 0 *)
| EmptyArray           (* check_array: 0 samples or 0 features *)
| NonFiniteInput       (* check_array: input contains NaN or infinity *)
| IncompatibleDimension (* check_pairwise_arrays: X.shape[1] != Y.shape[1] *)
| EmptySequence        (* argmin / argmax of an empty sequence *)
| ScorerError.         (* raised by silhouette_score *)

Inductive result (A : Type) : Type :=
| Ok (a : A)
| Raise (e : error).
Arguments Ok {A} a.
Arguments Raise {A} e.

Definition rbind {A B} (r : result A) (f : A -> result B) : result B :=
  match r with
  | Ok a => f a
  | Raise e => Raise e
  end.

Fixpoint rmap {A B} (f : A -> result B) (l : list A) : result (list B) :=
  match l with
  | [] => Ok []
  | a :: l' => rbind (f a) (fun b => rbind (rmap f l') (fun bs => Ok (b :: bs)))
  end.

Declare Scope result_scope.
Delimit Scope result_scope with result.
Notation "x <- r ;; k" := (rbind r (fun x => k))
  (at level 61, r at next level, right associativity) : result_scope.

(** ** Arrays *)

Definition vec := list float.
Definition matrix := list vec.

(** [X.shape[1]] of a matrix with at least one row. *)
Definition ncols (X : matrix) : nat :=
  match X with
  | [] => 0
  | r :: _ => length r
  end.

(** NumPy 2-D arrays are rectangular. *)
Definition rectangular (D : nat) (X : matrix) : Prop :=
  Forall (fun r => length r = D) X.

(** ** NumPy primitives *)

Module Np.
Local Open Scope float_scope.

Definition float_of_nat (n : nat) : float := of_uint63 (Uint63.of_Z (Z.of_nat n)).

Definition isnan (x : float) : bool := is_nan x.
Definition isfinite (x : float) : bool := is_finite x.

(** [X[idx]] with an integer index array: the selected rows, in order. *)
Definition take (X : matrix) (idx : list nat) : matrix :=
  map (fun i => nth i X []) idx.

(** [X[labels == j]]: the rows whose label is [j]. *)
Fixpoint select (X : matrix) (labels : list nat) (j : nat) : matrix :=
  match X, labels with
  | r :: X', l :: labels' =>
      if Nat.eqb l j then r :: select X' labels' j else select X' labels' j
  | _, _ => []
  end.

Definition vadd (a b : vec) : vec := map (fun p => fst p + snd p) (combine a b).

(** [np.add.reduce(A, axis=0)] of a [(n, D)] array: the additive identity
    for [n = 0], otherwise the rows added one after the other onto the
    first one. *)
Definition sum_axis0 (D : nat) (A : matrix) : vec :=
  match A with
  | [] => repeat zero D
  | r :: A' => fold_left vadd A' r
  end.

(** [A.mean(axis=0)]: the column sums divided by the number of rows.  For an
    empty selection this is [0/0] in every column. *)
Definition mean_axis0 (D : nat) (A : matrix) : vec :=
  map (fun s => s / float_of_nat (length A)) (sum_axis0 D A).

(** [np.all(A == B)] for two arrays of the same shape: IEEE equality of
    every pair of entries (so a NaN entry makes it false). *)
Definition vec_eqb (a b : vec) : bool :=
  forallb (fun p => fst p =? snd p) (combine a b).
Definition all_eq (A B : matrix) : bool :=
  forallb (fun p => vec_eqb (fst p) (snd p)) (combine A B).

(** The scan of [np.argmin] on doubles: [mp] is the running minimum, [mi] its
    index, [i] the index of the next entry.  The running minimum is replaced
    when [!(x >= mp)], and a NaN stops the scan. *)
Fixpoint argmin_scan (mp : float) (mi i : nat) (l : vec) : nat :=
  match l with
  | [] => mi
  | x :: l' =>
      if mp <=? x then argmin_scan mp mi (S i) l'
      else if isnan x then i
      else argmin_scan x i (S i) l'
  end.

Definition argmin (l : vec) : result nat :=
  match l with
  | [] => Raise EmptySequence
  | x :: l' => Ok (if isnan x then 0%nat else argmin_scan x 0 1 l')
  end.

(** [np.argmax]: the same scan with [!(x <= mp)]. *)
Fixpoint argmax_scan (mp : float) (mi i : nat) (l : vec) : nat :=
  match l with
  | [] => mi
  | x :: l' =>
      if x <=? mp then argmax_scan mp mi (S i) l'
      else if isnan x then i
      else argmax_scan x i (S i) l'
  end.

Definition argmax (l : vec) : result nat :=
  match l with
  | [] => Raise EmptySequence
  | x :: l' => Ok (if isnan x then 0%nat else argmax_scan x 0 1 l')
  end.

(** [np.argmin(A, axis=1)]. *)
Definition argmin_axis1 (A : matrix) : result (list nat) := rmap argmin A.

(** [np.clip(x, lo, hi)] = [minimum(maximum(x, lo), hi)]. *)
Definition maximum (x y : float) : float :=
  if isnan x then x else if isnan y then y else if x <? y then y else x.
Definition minimum (x y : float) : float :=
  if isnan x then x else if isnan y then y else if y <? x then y else x.
Definition clip (x lo hi : float) : float := minimum (maximum x lo) hi.
End Np.

(** ** scikit-learn primitives *)

Module Sk.
Local Open Scope float_scope.
Local Open Scope result_scope.

Definition all_finite (A : matrix) : bool := forallb (forallb Np.isfinite) A.

(** [check_array]: rejects NaN and infinities, then arrays without samples
    or without features. *)
Definition check_array (A : matrix) : result matrix :=
  if negb (all_finite A) then Raise NonFiniteInput
  else if Nat.eqb (length A) 0 then Raise EmptyArray
  else if Nat.eqb (ncols A) 0 then Raise EmptyArray
  else Ok A.

Definition check_pairwise_arrays (X Y : matrix) : result (matrix * matrix) :=
  X' <- check_array X ;;
  Y' <- check_array Y ;;
  if Nat.eqb (ncols X') (ncols Y') then Ok (X', Y')
  else Raise IncompatibleDimension.

(** Dot product, accumulated left to right from [+0.0]. *)
Definition dot (a b : vec) : float :=
  fold_left (fun acc p => acc + fst p * snd p) (combine a b) zero.

(** [row_norms]: the Euclidean norm of a row. *)
Definition row_norm (a : vec) : float := sqrt (dot a a).

(** Machine epsilon of binary64. *)
Definition eps : float := 0x1p-52.

(** [_handle_zeros_in_scale]: a norm below [10 * eps] is replaced by 1. *)
Definition handle_zeros_in_scale (s : float) : float :=
  if s <? 10 * eps then one else s.

(** [normalize(X)], one row. *)
Definition normalize_row (a : vec) : vec :=
  let n := handle_zeros_in_scale (row_norm a) in
  map (fun x => x / n) a.

Definition cosine_similarity (X Y : matrix) : result matrix :=
  XY <- check_pairwise_arrays X Y ;;
  let X_normalized := map normalize_row (fst XY) in
  let Y_normalized := map normalize_row (snd XY) in
  Ok (map (fun x => map (fun y => dot x y) Y_normalized) X_normalized).

(** [cosine_distances]: [S *= -1; S += 1; clip(S, 0, 2)]. *)
Definition cosine_distance_of (s : float) : float :=
  Np.clip (s * (-1) + 1) 0 2.

Definition cosine_distances (X Y : matrix) : result matrix :=
  S <- cosine_similarity X Y ;;
  Ok (map (map cosine_distance_of) S).
End Sk.

(** ** The two functions of [app.py] *)

Section Engine.
Local Open Scope result_scope.

(** State of NumPy's global pseudo-random generator. *)
Variable rng : Type.
(** [np.random.seed(s)]: the state installed by seeding with [s]. *)
Variable seed_state : Z -> rng.
(** The draw behind [np.random.choice(N, k, replace=False)] for [k <= N]:
    the indices drawn and the generator state afterwards. *)
Variable draw : rng -> nat -> nat -> list nat * rng.
(** [silhouette_score(X, labels, metric='cosine')]. *)
Variable silhouette_score : matrix -> list nat -> result float.

(** Contract of sampling without replacement. *)
Definition draw_ok : Prop :=
  forall g N k, k <= N ->
    length (fst (draw g N k)) = k /\
    NoDup (fst (draw g N k)) /\
    Forall (fun i => i < N) (fst (draw g N k)).

(** Computations over the global generator state that may raise. *)
Definition M (A : Type) : Type := rng -> result A * rng.
Definition ret {A} (a : A) : M A := fun g => (Ok a, g).
Definition bind {A B} (m : M A) (f : A -> M B) : M B :=
  fun g => match m g with
           | (Ok a, g') => f a g'
           | (Raise e, g') => (Raise e, g')
           end.
Definition lift {A} (r : result A) : M A := fun g => (r, g).

Definition np_random_seed (s : Z) : M unit := fun _ => (Ok tt, seed_state s).

(** The argument checks of [np.random.choice(N, size, replace=False)], in
    the order in which they are made. *)
Definition choice_error (N : nat) (size : Z) : option error :=
  if Nat.eqb N 0 && negb (size =? 0)%Z then Some EmptyPopulation
  else if (Z.of_nat N <? size)%Z then Some SampleLargerThanPopulation
  else if (size <? 0)%Z then Some NegativeDimensions
  else None.

Definition np_random_choice (N : nat) (size : Z) : M (list nat) :=
  fun g =>
    match choice_error N size with
    | Some e => (Raise e, g)
    | None => let (idx, g') := draw g N (Z.to_nat size) in (Ok idx, g')
    end.

(** The indices drawn right after [np.random.seed(42)], and the generator
    state after the draw. *)
Definition seeded_indices (N k : nat) : list nat := fst (draw (seed_state 42%Z) N k).
Definition seeded_state (N k : nat) : rng := snd (draw (seed_state 42%Z) N k).

(** [np.array([X[labels == j].mean(axis=0) for j in range(k)])]. *)
Definition recompute_centroids (X : matrix) (labels : list nat) (k : nat) : matrix :=
  map (fun j => Np.mean_axis0 (ncols X) (Np.select X labels j)) (seq 0 k).

(** Lines 61-67: the [for _ in range(100)] loop of [find_optimal_clusters];
    [n] is the number of iterations left, [iters] counts the iterations
    begun so far. *)
Fixpoint find_optimal_loop (n : nat) (X : matrix) (k : nat)
    (initial_centroids : matrix) (labels : list nat) (iters : nat)
    : result (list nat * nat) :=
  match n with
  | O => Ok (labels, iters)
  | S n' =>
      distances <- Sk.cosine_distances X initial_centroids ;;
      labels <- Np.argmin_axis1 distances ;;
      let new_centroids := recompute_centroids X labels k in
      if Np.all_eq initial_centroids new_centroids then Ok (labels, S iters)
      else find_optimal_loop n' X k new_centroids labels (S iters)
  end.

(** One candidate of the model selection: [k], its labelling, its score. *)
Definition candidate : Type := (Z * list nat * float)%type.
Definition cand_k (c : candidate) : Z := fst (fst c).
Definition cand_labels (c : candidate) : list nat := snd (fst c).
Definition cand_score (c : candidate) : float := snd c.

Definition no_candidate : candidate := (0%Z, [], nan).

(** Lines 59-68: the body of [for k in K]. *)
Definition find_optimal_trial (X : matrix) (k : Z) : M candidate :=
  bind (np_random_seed 42) (fun _ =>
  bind (np_random_choice (length X) k) (fun idx =>
  let initial_centroids := Np.take X idx in
  bind (lift (find_optimal_loop 100 X (Z.to_nat k) initial_centroids [] 0)) (fun r =>
  bind (lift (silhouette_score X (fst r))) (fun s =>
  ret (k, fst r, s))))).

(** Lines 58-68: [for k in K], appending to [sil_scores]. *)
Fixpoint find_optimal_for (ks : list Z) (X : matrix) (acc : list candidate)
    : M (list candidate) :=
  match ks with
  | [] => ret acc
  | k :: ks' =>
      bind (find_optimal_trial X k) (fun c =>
      find_optimal_for ks' X (acc ++ [c]))
  end.

(** [range(2, 11)]. *)
Definition K : list Z := [2; 3; 4; 5; 6; 7; 8; 9; 10]%Z.

Definition find_optimal_candidates (X : matrix) : M (list candidate) :=
  find_optimal_for K X [].

(** Lines 55-70. *)
Definition find_optimal_clusters (X : matrix) : M Z :=
  bind (find_optimal_candidates X) (fun cands =>
  let sil_scores := map cand_score cands in
  bind (lift (Np.argmax sil_scores)) (fun i =>
  let best_k := nth i K 0%Z in
  ret best_k)).

(** Lines 76-82: the loop of [perform_clustering]. *)
Fixpoint perform_clustering_loop (n : nat) (X : matrix) (best_k : nat)
    (initial_centroids : matrix) (labels_cosine : list nat) (iters : nat)
    : result (list nat * nat) :=
  match n with
  | O => Ok (labels_cosine, iters)
  | S n' =>
      distances <- Sk.cosine_distances X initial_centroids ;;
      labels_cosine <- Np.argmin_axis1 distances ;;
      let new_centroids := recompute_centroids X labels_cosine best_k in
      if Np.all_eq initial_centroids new_centroids
      then Ok (labels_cosine, S iters)
      else perform_clustering_loop n' X best_k new_centroids labels_cosine (S iters)
  end.

(** Lines 73-83, with the number of iterations performed. *)
Definition perform_clustering_run (X : matrix) (best_k : Z) : M (list nat * nat) :=
  bind (np_random_seed 42) (fun _ =>
  bind (np_random_choice (length X) best_k) (fun idx =>
  let initial_centroids := Np.take X idx in
  lift (perform_clustering_loop 100 X (Z.to_nat best_k) initial_centroids [] 0))).

(** Lines 73-83. *)
Definition perform_clustering (X : matrix) (best_k : Z) : M (list nat) :=
  bind (perform_clustering_run X best_k) (fun r => ret (fst r)).

End Engine.

(** ** Vocabulary of the statements *)

(** Strict and non-strict order of binary64 values, on their decoded form;
    neither holds when an argument is NaN. *)
Definition sf_lt (a b : spec_float) : Prop := SFcompare a b = Some Lt.
Definition sf_le (a b : spec_float) : Prop :=
  SFcompare a b = Some Lt \/ SFcompare a b = Some Eq.

Definition not_nan (x : float) : Prop := is_nan x = false.
Definition zero_or_nan (x : float) : Prop := x = zero \/ x = nan.

(** The distances of one row of the matrix to the centroids: what
    [cosine_distances] holds in that row once its validation has passed. *)
Definition distances_of_row (C : matrix) (x : vec) : vec :=
  map (fun c => Sk.cosine_distance_of (Sk.dot (Sk.normalize_row x) (Sk.normalize_row c))) C.

Definition distance_table (X C : matrix) : matrix := map (distances_of_row C) X.

(** ** One iteration, iteration traces and the clustering objective *)

Local Open Scope result_scope.

(** The body shared by both loops (lines 62-64 and 77-79): distances, labels,
    recomputed centroids. *)
Definition lloyd_step (X : matrix) (k : nat) (centroids : matrix)
    : result (list nat * matrix) :=
  distances <- Sk.cosine_distances X centroids ;;
  labels <- Np.argmin_axis1 distances ;;
  Ok (labels, recompute_centroids X labels k).

(** The centroids held in [initial_centroids] after [i] iterations that did
    not break. *)
Fixpoint centroids_after (i : nat) (X : matrix) (k : nat) (C0 : matrix)
    : result matrix :=
  match i with
  | O => Ok C0
  | S i' =>
      C <- centroids_after i' X k C0 ;;
      r <- lloyd_step X k C ;;
      Ok (snd r)
  end.

(** Iteration [i] (counted from 0) runs through without raising and its
    convergence test [np.all(initial_centroids == new_centroids)] gives [b]. *)
Definition iteration_test (X : matrix) (k : nat) (C0 : matrix) (i : nat) (b : bool)
    : Prop :=
  exists C labels C',
    centroids_after i X k C0 = Ok C /\
    lloyd_step X k C = Ok (labels, C') /\
    Np.all_eq C C' = b.

(** The loop leaves after [n] iterations with [labels]: the first [n - 1]
    iterations did not converge, iteration [n] computed [labels], and either
    its convergence test succeeded or it was the last of the [cap]
    iterations. *)
Definition stops_after (cap : nat) (X : matrix) (k : nat) (C0 : matrix)
    (labels : list nat) (n : nat) : Prop :=
  1 <= n <= cap /\
  (forall i, i < n - 1 -> iteration_test X k C0 i false) /\
  exists C C',
    centroids_after (n - 1) X k C0 = Ok C /\
    lloyd_step X k C = Ok (labels, C') /\
    (Np.all_eq C C' = true \/ n = cap).

(** The loop is aborted in its [n]-th iteration by the exception [e] of a
    library call: the first [n - 1] iterations did not converge and the
    [n]-th raised. *)
Definition raises_during (cap : nat) (X : matrix) (k : nat) (C0 : matrix)
    (e : error) (n : nat) : Prop :=
  1 <= n <= cap /\
  (forall i, i < n - 1 -> iteration_test X k C0 i false) /\
  exists C,
    centroids_after (n - 1) X k C0 = Ok C /\
    lloyd_step X k C = Raise e.

(** Sum over the rows of the squared cosine distance to the assigned
    centroid; [distances] holds the distance of every row to every centroid. *)
Definition sum_squared_distances (distances : matrix) (labels : list nat) : float :=
  fold_left
    (fun acc p => let d := nth (snd p) (fst p) nan in (acc + d * d)%float)
    (combine distances labels) zero.

(** The objective seen by iteration [i]: rows against the centroids the
    iteration starts from, with the labels it assigns. *)
Definition objective_at (i : nat) (X : matrix) (k : nat) (C0 : matrix) : result float :=
  C <- centroids_after i X k C0 ;;
  distances <- Sk.cosine_distances X C ;;
  labels <- Np.argmin_axis1 distances ;;
  Ok (sum_squared_distances distances labels).

(** The objective after the update of iteration [i]: rows against the
    recomputed centroids, with the labels of that iteration. *)
Definition objective_after_update (i : nat) (X : matrix) (k : nat) (C0 : matrix)
    : result float :=
  C <- centroids_after i X k C0 ;;
  r <- lloyd_step X k C ;;
  distances <- Sk.cosine_distances X (snd r) ;;
  Ok (sum_squared_distances distances (fst r)).

(** The objective goes up from iteration [i] to iteration [i + 1]. *)
Definition increases_at (i : nat) (X : matrix) (k : nat) (C0 : matrix) : bool :=
  match objective_at i X k C0, objective_at (S i) X k C0 with
  | Ok a, Ok b => (a <? b)%float
  | _, _ => false
  end.

(** Number of iterations the loop performs from the centroids [C0] (0 when it
    raises). *)
Definition loop_iterations (X : matrix) (k : nat) (C0 : matrix) : nat :=
  match perform_clustering_loop 100 X k C0 [] 0 with
  | Ok (_, n) => n
  | Raise _ => 0
  end.

(** The objective goes up between two consecutive iterations among those the
    loop performs from [C0]. *)
Definition objective_increases_in_run (X : matrix) (k : nat) (C0 : matrix) : bool :=
  existsb (fun i => increases_at i X k C0) (seq 0 (loop_iterations X k C0 - 1)).

(** All ways of drawing two distinct indices below [N], in order. *)
Definition ordered_pairs (N : nat) : list (list nat) :=
  flat_map (fun i =>
    flat_map (fun j => if Nat.eqb i j then [] else [[i; j]]) (seq 0 N)) (seq 0 N).

(** ** A reference scorer and a concrete generator

    Used to run the two functions on concrete matrices. *)

Module Silhouette.
Local Open Scope float_scope.

Definition indexed {A} (l : list A) : list (nat * A) := combine (seq 0 (length l)) l.

(** [pairwise_distances(X, metric='cosine')]: the diagonal is set to 0. *)
Definition pairwise (X : matrix) : result matrix :=
  (D <- Sk.cosine_distances X X ;;
   Ok (map (fun ir =>
             map (fun jd => if Nat.eqb (fst ir) (fst jd) then zero else snd jd)
                 (indexed (snd ir)))
           (indexed D)))%result.

Definition classes (labels : list nat) : list nat := nodup Nat.eq_dec labels.
Definition label_freq (labels : list nat) (c : nat) : nat :=
  length (filter (Nat.eqb c) labels).

(** [np.bincount(labels, weights=row)] at class [c]. *)
Definition cluster_distance (row : vec) (labels : list nat) (c : nat) : float :=
  fold_left (fun acc p => if Nat.eqb (snd p) c then acc + fst p else acc)
            (combine row labels) zero.

Definition nan_to_num (x : float) : float := if Np.isnan x then zero else x.

Definition sample (labels : list nat) (own : nat) (row : vec) : float :=
  let intra :=
    cluster_distance row labels own / Np.float_of_nat (label_freq labels own - 1) in
  let inter :=
    fold_left
      (fun m c =>
         if Nat.eqb c own then m
         else Np.minimum m (cluster_distance row labels c / Np.float_of_nat (label_freq labels c)))
      (classes labels) infinity in
  nan_to_num ((inter - intra) / Np.maximum intra inter).

Definition mean (l : vec) : float :=
  fold_left add l zero / Np.float_of_nat (length l).

(** [silhouette_score(X, labels, metric='cosine')]: the number of distinct
    labels must lie in [2, n_samples - 1]. *)
Definition score (X : matrix) (labels : list nat) : result float :=
  let n_labels := length (classes labels) in
  if negb (Nat.ltb 1 n_labels && Nat.ltb n_labels (length labels)) then Raise ScorerError
  else
    (D <- pairwise X ;;
     Ok (mean (map (fun p => sample labels (snd p) (fst p)) (combine D labels))))%result.
End Silhouette.

(** The generator state is a counter; a draw takes [k] consecutive residues
    modulo [N], starting at the counter. *)
Definition demo_rng : Type := nat.
Definition demo_seed (s : Z) : demo_rng := Z.to_nat s.
Definition demo_draw (g : demo_rng) (N k : nat) : list nat * demo_rng :=
  (map (fun i => (g + i) mod N) (seq 0 k), S g).

Definition demo_perform_clustering := perform_clustering demo_seed demo_draw.
Definition demo_find_optimal_clusters :=
  find_optimal_clusters demo_seed demo_draw Silhouette.score.
Definition demo_find_optimal_candidates :=
  find_optimal_candidates demo_seed demo_draw Silhouette.score.

(** Small matrices on which the functions are run below. *)
Definition X2 : matrix := [[1;0];[1;0]]%float.
Definition X3 : matrix := [[1;0];[0;1];[3;4]]%float.
Definition Xz : matrix := [[1;0];[0;1];[0;0]]%float.
Definition X4 : matrix := [[0;1];[2;0];[2;1];[5;3]]%float.
Definition X6 : matrix :=
  [[8;20;20];[1;3;0];[6;5;6];[3;5;3];[100;2;20];[20;0;100]]%float.
Definition X11 : matrix :=
  [[2;3];[1;9];[4;8];[7;5];[7;4];[9;1];[1;8];[6;2];[5;2];[7;6];[0;1]]%float.

(** The nine candidates computed on the eleven-row matrix. *)
Definition X11_candidates : list candidate :=
  Eval vm_compute in
    match demo_find_optimal_candidates X11 0%nat with
    | (Ok cands, _) => cands
    | _ => []
    end.

(** ** The loops over any distance routine

    The matrix product inside [cosine_distances] is rounded by the BLAS, in
    an order the library does not fix; the last bit of a distance, and with
    it an exact tie between two centroids, can therefore differ from what
    [Sk.cosine_distances] gives.  So that the assignment rule can be stated
    for whatever matrix the library returns, the two loops are given here
    with the routine called in lines 62 and 77 as a parameter.
    [find_optimal_loop] and [perform_clustering_loop] are the instances at
    [Sk.cosine_distances]. *)

Section AnyDistances.

Variable cosine_distances : matrix -> matrix -> result matrix.




End AnyDistances.




(** ** The rest of [app.py]: strings, frames and the text functions

    [filter_by_date] (lines 33-35), the body of [preprocess_text]
    (lines 39-45), [generate_wordcloud] (lines 86-92) and three fragments of
    [main] (lines 108-117, 130 and 135, 136) are embedded.  A Python [str] is
    the list of its code points, a data frame the list of its rows, a
    [Counter] the list of its items in insertion order.  The column
    ['cleaned_article'] is taken to hold strings.

    The tokeniser, the lemmatiser and [WordCloud] are parameters.  The cache
    that [st.cache_data] puts in front of [preprocess_text] is not modelled:
    what is embedded is what the body computes from the frame it is given.
    [parse_date], [load_data] and [vectorize_text] consist of calls into
    pandas and scikit-learn alone and are not embedded. *)

Module Py.

Definition char : Type := N.
Definition str : Type := list char.

(** [str.isspace] of one code point: the characters [str.split()] splits on. *)
Definition isspace (c : char) : bool :=
  ((9 <=? c) && (c <=? 13) || (28 <=? c) && (c <=? 32) ||
   (c =? 133) || (c =? 160) || (c =? 5760) ||
   (8192 <=? c) && (c <=? 8202) ||
   (c =? 8232) || (c =? 8233) || (c =? 8239) || (c =? 8287) || (c =? 12288))%N.

Definition space : char := 32%N.

(** [s.split()]: the maximal runs of characters that are not white space;
    [w] is the run being read. *)
Fixpoint split_from (w : str) (s : str) : list str :=
  match s with
  | [] => match w with [] => [] | _ => [w] end
  | c :: s' =>
      if isspace c
      then match w with [] => split_from [] s' | _ => w :: split_from [] s' end
      else split_from (w ++ [c]) s'
  end.

Definition split (s : str) : list str := split_from [] s.

(** [sep.join(l)]. *)
Fixpoint join (sep : str) (l : list str) : str :=
  match l with
  | [] => []
  | [w] => w
  | w :: l' => w ++ sep ++ join sep l'
  end.

Definition str_eqb (a b : str) : bool :=
  if list_eq_dec N.eq_dec a b then true else false.

(** [w in s] for a set of strings. *)
Definition mem (w : str) (s : list str) : bool := existsb (str_eqb w) s.

(** A [collections.Counter] over strings: the keys in the order of their
    first insertion, each with its count. *)
Definition counter : Type := list (str * nat).

(** [c[w] += 1]. *)
Fixpoint counter_add (w : str) (c : counter) : counter :=
  match c with
  | [] => [(w, 1)]
  | (u, n) :: c' =>
      if str_eqb u w then (u, S n) :: c' else (u, n) :: counter_add w c'
  end.

(** [Counter(words)]. *)
Definition Counter (words : list str) : counter :=
  fold_left (fun c w => counter_add w c) words [].

(** [c[w]], 0 for a missing key. *)
Fixpoint counter_get (c : counter) (w : str) : nat :=
  match c with
  | [] => 0
  | (u, n) :: c' => if str_eqb u w then n else counter_get c' w
  end.

(** [sorted(items, key=itemgetter(1), reverse=True)]: the sort is stable, so
    an item goes in front of the later items whose count is not larger. *)
Fixpoint insert_by_count (x : str * nat) (l : counter) : counter :=
  match l with
  | [] => [x]
  | y :: l' =>
      if snd y <=? snd x then x :: y :: l' else y :: insert_by_count x l'
  end.

Definition sorted_by_count (c : counter) : counter :=
  fold_right insert_by_count [] c.

(** [c.most_common(n)], that is [heapq.nlargest(n, c.items(),
    key=itemgetter(1))]: the first [n] items of the stable sort by
    decreasing count. *)
Definition most_common (n : nat) (c : counter) : counter :=
  firstn n (sorted_by_count c).

(** A word as [split] produces them: not empty, no white space. *)
Definition clean_word (w : str) : Prop :=
  w <> [] /\ Forall (fun c => isspace c = false) w.

Definition keys (c : counter) : list str := map fst c.

(** Number of occurrences of [w] among [words]. *)
Definition occurrences (w : str) (words : list str) : nat :=
  count_occ (list_eq_dec N.eq_dec) words w.

(** The count of [x] is at least the count of [y]. *)
Definition count_ge (x y : str * nat) : Prop := snd y <= snd x.

End Py.

(** A row of the frame read by [load_data]: the parsed date, in nanoseconds
    since the epoch ([None] for [NaT]), and the article text. *)
Record article : Type := {
  date : option Z;
  cleaned_article : Py.str
}.

(** Lines 33-35.  A comparison with [NaT] is false. *)
Definition filter_by_date (df : list article) (start_date end_date : Z)
    : list article :=
  let mask := fun a =>
    match date a with
    | Some d => (start_date <=? d)%Z && (d <=? end_date)%Z
    | None => false
    end in
  filter mask df.

(** The article is dated, and its date lies in the closed range. *)
Definition in_range (start_date end_date : Z) (a : article) : Prop :=
  exists d, date a = Some d /\ (start_date <= d <= end_date)%Z.

(** [pd.to_datetime] of a calendar date, given as days since the epoch:
    midnight of that day. *)
Definition ns_per_day : Z := 86400000000000.
Definition to_datetime (d : Z) : Z := (d * ns_per_day)%Z.

(** What lines 108-116 of [main] show. *)
Inductive notice : Type :=
| EndDateMustFallAfterStartDate
| NoArticlesFound.

(** Lines 108-117 of [main]: the check of the two dates, the filter and the
    test for an empty frame.  The notices shown, and the frame that goes on
    to the clustering ([None] when the frame is empty). *)
Definition main_date_range (df : list article) (start_date end_date : Z)
    : list notice * option (list article) :=
  let shown :=
    if (end_date <? start_date)%Z then [EndDateMustFallAfterStartDate] else [] in
  let df_filtered :=
    filter_by_date df (to_datetime start_date) (to_datetime end_date) in
  match df_filtered with
  | [] => (shown ++ [NoArticlesFound], None)
  | _ => (shown, Some df_filtered)
  end.

Section TextFunctions.

(** [nltk.tokenize.word_tokenize] and [WordNetLemmatizer().lemmatize]. *)
Variable word_tokenize : Py.str -> list Py.str.
Variable lemmatize : Py.str -> Py.str.

Definition set_cleaned_article (a : article) (text : Py.str) : article :=
  {| date := date a; cleaned_article := text |}.

(** Lines 40-41, on one text. *)
Definition remove_stopwords (stopwords : list Py.str) (text : Py.str) : Py.str :=
  Py.join [Py.space]
    (filter (fun word => negb (Py.mem word stopwords)) (word_tokenize text)).

(** Lines 43-44, on one text. *)
Definition lemmatize_words (text : Py.str) : Py.str :=
  Py.join [Py.space] (map lemmatize (Py.split text)).

(** Lines 39-45, the body of [preprocess_text]. *)
Definition preprocess_text (df : list article) (stopwords : list Py.str)
    : list article :=
  let df :=
    map (fun a => set_cleaned_article a (remove_stopwords stopwords (cleaned_article a)))
        df in
  let df :=
    map (fun a => set_cleaned_article a (lemmatize_words (cleaned_article a))) df in
  df.

(** [WordCloud(...).generate_from_frequencies]. *)
Variable image : Type.
Variable generate_from_frequencies : Py.counter -> result image.

(** Lines 86-92; a row of [df] is an article with its cluster. *)
Definition generate_wordcloud (df : list (article * nat)) (cluster : nat)
    : result (image * Py.counter) :=
  let cluster_articles := filter (fun r => Nat.eqb (snd r) cluster) df in
  let combined_text :=
    Py.join [Py.space] (map (fun r => cleaned_article (fst r)) cluster_articles) in
  let word_counts := Py.Counter (Py.split combined_text) in
  (wordcloud <- generate_from_frequencies word_counts ;;
   let common_words := Py.most_common 10 word_counts in
   Ok (wordcloud, common_words))%result.

End TextFunctions.

(** The texts of the articles of a cluster, and how often a word occurs in
    them, article by article. *)
Definition cluster_texts (df : list (article * nat)) (cluster : nat) : list Py.str :=
  map (fun r => cleaned_article (fst r)) (filter (fun r => Nat.eqb (snd r) cluster) df).

Definition cluster_occurrences (df : list (article * nat)) (cluster : nat) (w : Py.str)
    : nat :=
  list_sum (map (fun text => Py.occurrences w (Py.split text)) (cluster_texts df cluster)).

Section Pipeline.

Variable rng : Type.
Variable seed_state : Z -> rng.
Variable draw : rng -> nat -> nat -> list nat * rng.
Variable silhouette_score : matrix -> list nat -> result float.

(** Lines 130 and 135 of [main]: the two calls on the feature matrix. *)
Definition select_and_cluster (X : matrix) : M rng (Z * list nat) :=
  bind (find_optimal_clusters seed_state draw silhouette_score X) (fun best_k =>
  bind (perform_clustering seed_state draw X best_k) (fun labels =>
  ret (best_k, labels))).

(** Line 136 of [main]: [df_filtered['cluster'] = labels]; the lengths must
    agree. *)
Definition assign_clusters (df_filtered : list article) (labels : list nat)
    : option (list (article * nat)) :=
  if Nat.eqb (length df_filtered) (length labels)
  then Some (combine df_filtered labels) else None.

End Pipeline.


(** ** A small frame, a generator for the word cloud and a lemmatiser, to run
    the text functions on *)

Module Sample.
Import String.

(** An ASCII text as a [str]. *)
Definition text (s : string) : Py.str :=
  List.map Ascii.N_of_ascii (list_ascii_of_string s).

(** 2016-01-01, in days since the epoch. *)
Definition day0 : Z := 16801.

Definition hour : Z := 3600000000000.

(** Four articles: midnight of 2016-01-01, 09:00 on 2016-01-02, no date, and
    18:00 on 2016-01-03. *)
Definition frame : list article :=
  [ {| date := Some (to_datetime day0);
       cleaned_article := text "the cats sat on the mats" |};
    {| date := Some (to_datetime (day0 + 1) + 9 * hour)%Z;
       cleaned_article := text "dogs and  the cats" |};
    {| date := None;
       cleaned_article := text "cats" |};
    {| date := Some (to_datetime (day0 + 2) + 18 * hour)%Z;
       cleaned_article :=
         text "the birds and the cats and the dogs ran to a big red barn by noon" |} ].

Definition stop_words : list Py.str := [text "the"; text "and"; text "on"].

(** Drops a final s from a word of two letters or more. *)
Definition lemmatize (w : Py.str) : Py.str :=
  match rev w with
  | c :: (d :: r) => if N.eqb c 115 then rev (d :: r) else w
  | _ => w
  end.

(** The frame with a cluster column. *)
Definition clustered : list (article * nat) := combine frame [0; 1; 0; 0].

(** A stand-in for [WordCloud]: it refuses an empty counter with a
    [ValueError], as [WordCloud] does, and the image is the counter itself. *)
Definition generate_from_frequencies (c : Py.counter) : result Py.counter :=
  match c with
  | [] => Raise EmptySequence
  | _ => Ok c
  end.

(** The word cloud and the common words of cluster 0. *)
Definition wordcloud : Py.counter :=
  Eval vm_compute in
    match generate_wordcloud generate_from_frequencies clustered 0 with
    | Ok (w, _) => w
    | Raise _ => []
    end.

Definition common_words : Py.counter :=
  Eval vm_compute in
    match generate_wordcloud generate_from_frequencies clustered 0 with
    | Ok (_, c) => c
    | Raise _ => []
    end.

(** Eleven articles, one for each row of [X11]. *)
Definition frame11 : list article :=
  List.map (fun i => {| date := Some (to_datetime (day0 + Z.of_nat i));
                        cleaned_article := [] |}) (seq 0 11).

End Sample.

(** A matrix with repeated rows. *)
Definition Xd : matrix := [[1;0];[0;1];[1;0];[0;1];[2;0]]%float.
Unset Implicit Arguments.

(** * Properties *)

(** ** Order of binary64 numbers *)

Module FloatOrder.
Ltac cmp_cases :=
  repeat match goal with
  | H : context [Z.compare ?x ?y] |- _ =>
      destruct (Z.compare_spec x y); subst
  | |- context [Z.compare ?x ?y] =>
      destruct (Z.compare_spec x y); subst
  | H : context [Pos.compare_cont Eq ?x ?y] |- _ =>
      change (Pos.compare_cont Eq x y) with (Pos.compare x y) in H
  | |- context [Pos.compare_cont Eq ?x ?y] =>
      change (Pos.compare_cont Eq x y) with (Pos.compare x y)
  | H : context [Pos.compare ?x ?y] |- _ =>
      destruct (Pos.compare_spec x y); subst
  | |- context [Pos.compare ?x ?y] =>
      destruct (Pos.compare_spec x y); subst
  end.

Ltac sf_crush :=
  unfold sf_lt, sf_le, SFeqb, SFltb, SFleb, SFcompare in *;
  repeat match goal with
  | s : bool |- _ => destruct s
  end;
  simpl in *; cmp_cases; simpl in *;
  try solve [ intuition (try discriminate; try congruence; try lia) ].

Lemma sf_lt_le_trans a b c : sf_lt a b -> sf_le b c -> sf_lt a c.
Proof. destruct a, b, c; sf_crush. Qed.

Lemma sf_le_lt_trans a b c : sf_le a b -> sf_lt b c -> sf_lt a c.
Proof. destruct a, b, c; sf_crush. Qed.

Lemma sf_le_trans a b c : sf_le a b -> sf_le b c -> sf_le a c.
Proof. destruct a, b, c; sf_crush. Qed.

Lemma sf_total a b :
  a <> S754_nan -> b <> S754_nan -> sf_le a b \/ sf_lt b a.
Proof. destruct a, b; sf_crush. Qed.

Lemma sf_le_refl a : a <> S754_nan -> sf_le a a.
Proof. destruct a; sf_crush. Qed.

Lemma sf_le_not_nan a b : sf_le a b -> a <> S754_nan /\ b <> S754_nan.
Proof. destruct a, b; sf_crush. Qed.

Lemma sf_eqb_refl a : SFeqb a a = true <-> a <> S754_nan.
Proof. destruct a; sf_crush. Qed.

Lemma sf_ltb_iff a b : SFltb a b = true <-> sf_lt a b.
Proof.
  unfold SFltb, sf_lt. destruct (SFcompare a b) as [[]|]; intuition congruence.
Qed.

Lemma sf_leb_iff a b : SFleb a b = true <-> sf_le a b.
Proof.
  unfold SFleb, sf_le. destruct (SFcompare a b) as [[]|]; intuition congruence.
Qed.

Lemma sf_lt_not_eqb a b : sf_lt a b -> SFeqb a b = false.
Proof. unfold sf_lt, SFeqb. intros ->. reflexivity. Qed.

Local Open Scope float_scope.

Lemma is_nan_false x : is_nan x = false <-> Prim2SF x <> S754_nan.
Proof.
  unfold is_nan. rewrite eqb_spec, negb_false_iff. apply sf_eqb_refl.
Qed.

Lemma is_nan_true x : is_nan x = true <-> Prim2SF x = S754_nan.
Proof.
  destruct (is_nan x) eqn:E.
  - split; [intros _|reflexivity].
    destruct (Prim2SF x) eqn:P; try reflexivity;
      exfalso; assert (is_nan x = false) by (apply is_nan_false; rewrite P; discriminate);
      congruence.
  - apply is_nan_false in E. split; [discriminate | contradiction].
Qed.

Lemma ltb_iff x y : (x <? y) = true <-> sf_lt (Prim2SF x) (Prim2SF y).
Proof. rewrite ltb_spec. apply sf_ltb_iff. Qed.

Lemma leb_iff x y : (x <=? y) = true <-> sf_le (Prim2SF x) (Prim2SF y).
Proof. rewrite leb_spec. apply sf_leb_iff. Qed.

Lemma leb_false_ltb x y :
  is_nan x = false -> is_nan y = false -> (x <=? y) = false -> (y <? x) = true.
Proof.
  intros Hx Hy H. apply is_nan_false in Hx, Hy.
  destruct (sf_total _ _ Hx Hy) as [L|L].
  - apply leb_iff in L. congruence.
  - now apply ltb_iff.
Qed.

Lemma ltb_leb_trans x y z : (x <? y) = true -> (y <=? z) = true -> (x <? z) = true.
Proof.
  rewrite !ltb_iff, leb_iff. apply sf_lt_le_trans.
Qed.

Lemma leb_ltb_trans x y z : (x <=? y) = true -> (y <? z) = true -> (x <? z) = true.
Proof.
rewrite !ltb_iff, leb_iff. apply sf_le_lt_trans.
Qed.

Lemma leb_trans x y z : (x <=? y) = true -> (y <=? z) = true -> (x <=? z) = true.
Proof. rewrite !leb_iff. apply sf_le_trans. Qed.

Lemma ltb_leb x y : (x <? y) = true -> (x <=? y) = true.
Proof. rewrite ltb_iff, leb_iff. unfold sf_lt, sf_le. auto. Qed.

Lemma leb_refl x : is_nan x = false -> (x <=? x) = true.
Proof. rewrite is_nan_false, leb_iff. apply sf_le_refl. Qed.

Lemma leb_not_nan x y : (x <=? y) = true -> is_nan x = false /\ is_nan y = false.
Proof. rewrite leb_iff, !is_nan_false. apply sf_le_not_nan. Qed.

Lemma ltb_not_eqb x y : (x <? y) = true -> (x =? y) = false.
Proof. rewrite ltb_iff, eqb_spec. apply sf_lt_not_eqb. Qed.
End FloatOrder.


(** ** Facts about the array primitives *)

Module NpFacts.
Import FloatOrder.
Local Open Scope float_scope.

Lemma nth_snoc_last {A} (pre : list A) (x d : A) :
  nth (length pre) (pre ++ [x]) d = x.
Proof. rewrite app_nth2, Nat.sub_diag by lia. reflexivity. Qed.

Lemma nth_snoc_before {A} (pre : list A) (x d : A) j :
  (j < length pre)%nat -> nth j (pre ++ [x]) d = nth j pre d.
Proof. intros. now rewrite app_nth1. Qed.

Lemma snoc_app {A} (pre : list A) x rest : (pre ++ [x]) ++ rest = pre ++ x :: rest.
Proof. now rewrite <- app_assoc. Qed.

(** Invariant of the [argmin] scan: [pre] is the part already seen. *)
Lemma argmin_scan_correct (d : float) (rest pre : vec) (mp : float) (mi : nat) :
  (mi < length pre)%nat ->
  nth mi pre d = mp ->
  not_nan mp ->
  Forall not_nan rest ->
  (forall j, (j < length pre)%nat -> (mp <=? nth j pre d) = true) ->
  (forall j, (j < mi)%nat -> (mp <? nth j pre d) = true) ->
  let r := Np.argmin_scan mp mi (length pre) rest in
  let l := pre ++ rest in
  (r < length l)%nat /\
  (forall j, (j < length l)%nat -> (nth r l d <=? nth j l d) = true) /\
  (forall j, (j < r)%nat -> (nth r l d <? nth j l d) = true).
Proof.
  revert pre mp mi.
  induction rest as [|x rest IH]; intros pre mp mi Hmi Hnth Hmp Hrest Hle Hlt; simpl.
  - rewrite app_nil_r. rewrite Hnth. auto.
  - inversion Hrest as [|? ? Hx Hrest']; subst x0 l.
    assert (Hlen : length (pre ++ [x]) = S (length pre))
      by (rewrite length_app; simpl; lia).
    destruct (mp <=? x) eqn:E.
    + rewrite <- snoc_app, <- Hlen.
      apply IH; [rewrite Hlen; lia | | assumption | assumption | | ].
      * rewrite nth_snoc_before; auto.
      * intros j Hj. rewrite Hlen in Hj.
        destruct (Nat.eq_dec j (length pre)) as [->|Hne].
        -- now rewrite nth_snoc_last.
        -- rewrite nth_snoc_before by lia. apply Hle; lia.
      * intros j Hj. rewrite nth_snoc_before by lia. now apply Hlt.
    + unfold Np.isnan. rewrite Hx.
      assert (Hxm : (x <? mp) = true) by (apply leb_false_ltb; assumption).
      rewrite <- snoc_app, <- Hlen.
      apply IH; [rewrite Hlen; lia | | assumption | assumption | | ].
      * apply nth_snoc_last.
      * intros j Hj. rewrite Hlen in Hj.
        destruct (Nat.eq_dec j (length pre)) as [->|Hne].
        -- rewrite nth_snoc_last. now apply leb_refl.
        -- rewrite nth_snoc_before by lia. apply ltb_leb.
           eapply ltb_leb_trans; [exact Hxm|]. apply Hle; lia.
      * intros j Hj. rewrite nth_snoc_before by lia.
        eapply ltb_leb_trans; [exact Hxm|]. apply Hle; lia.
Qed.

(** [np.argmin] on a row without NaN: a first position of the minimum. *)
Lemma argmin_correct (d : float) (l : vec) (r : nat) :
  Forall not_nan l ->
  Np.argmin l = Ok r ->
  (r < length l)%nat /\
  (forall j, (j < length l)%nat -> (nth r l d <=? nth j l d) = true) /\
  (forall j, (j < r)%nat -> (nth r l d <? nth j l d) = true).
Proof.
  destruct l as [|x l']; simpl; [discriminate|].
  intros Hall H. inversion Hall as [|? ? Hx Hl']; subst.
  unfold Np.isnan in H. rewrite Hx in H. injection H as <-.
  apply (argmin_scan_correct d l' [x] x 0%nat); simpl; auto.
  - intros j Hj. assert (j = 0%nat) by lia. subst. now apply leb_refl.
  - intros j Hj. lia.
Qed.

(** The index returned by [np.argmin] is always a position of the row. *)
Lemma argmin_scan_bound (rest : vec) (mp : float) (mi i : nat) :
  (mi < i)%nat -> (Np.argmin_scan mp mi i rest < i + length rest)%nat.
Proof.
  revert mp mi i. induction rest as [|x rest IH]; intros mp mi i H; simpl; [lia|].
  destruct (mp <=? x).
  - specialize (IH mp mi (S i)). lia.
  - destruct (Np.isnan x); [lia|]. specialize (IH x i (S i)). lia.
Qed.

Lemma argmin_bound (l : vec) (r : nat) : Np.argmin l = Ok r -> (r < length l)%nat.
Proof.
  destruct l as [|x l']; simpl; [discriminate|]. intros H. injection H as <-.
  destruct (Np.isnan x); [lia|].
  pose proof (argmin_scan_bound l' x 0%nat 1%nat). lia.
Qed.

Lemma argmin_ok (l : vec) : l <> [] -> exists r, Np.argmin l = Ok r.
Proof. destruct l; [congruence|]. intros _. simpl. eauto. Qed.

(** Invariant of the [argmax] scan. *)
Lemma argmax_scan_correct (d : float) (rest pre : vec) (mp : float) (mi : nat) :
  (mi < length pre)%nat ->
  nth mi pre d = mp ->
  not_nan mp ->
  Forall not_nan rest ->
  (forall j, (j < length pre)%nat -> (nth j pre d <=? mp) = true) ->
  (forall j, (j < mi)%nat -> (nth j pre d <? mp) = true) ->
  let r := Np.argmax_scan mp mi (length pre) rest in
  let l := pre ++ rest in
  (r < length l)%nat /\
  (forall j, (j < length l)%nat -> (nth j l d <=? nth r l d) = true) /\
  (forall j, (j < r)%nat -> (nth j l d <? nth r l d) = true).
Proof.
  revert pre mp mi.
  induction rest as [|x rest IH]; intros pre mp mi Hmi Hnth Hmp Hrest Hle Hlt; simpl.
  - rewrite app_nil_r. rewrite Hnth. auto.
  - inversion Hrest as [|? ? Hx Hrest']; subst x0 l.
    assert (Hlen : length (pre ++ [x]) = S (length pre))
      by (rewrite length_app; simpl; lia).
    destruct (x <=? mp) eqn:E.
    + rewrite <- snoc_app, <- Hlen.
      apply IH; [rewrite Hlen; lia | | assumption | assumption | | ].
      * rewrite nth_snoc_before; auto.
      * intros j Hj. rewrite Hlen in Hj.
        destruct (Nat.eq_dec j (length pre)) as [->|Hne].
        -- now rewrite nth_snoc_last.
        -- rewrite nth_snoc_before by lia. apply Hle; lia.
      * intros j Hj. rewrite nth_snoc_before by lia. now apply Hlt.
    + unfold Np.isnan. rewrite Hx.
      assert (Hxm : (mp <? x) = true) by (apply leb_false_ltb; assumption).
      rewrite <- snoc_app, <- Hlen.
      apply IH; [rewrite Hlen; lia | | assumption | assumption | | ].
      * apply nth_snoc_last.
      * intros j Hj. rewrite Hlen in Hj.
        destruct (Nat.eq_dec j (length pre)) as [->|Hne].
        -- rewrite nth_snoc_last. now apply leb_refl.
        -- rewrite nth_snoc_before by lia. apply ltb_leb.
           eapply leb_ltb_trans; [|exact Hxm]. apply Hle; lia.
      * intros j Hj. rewrite nth_snoc_before by lia.
        eapply leb_ltb_trans; [|exact Hxm]. apply Hle; lia.
Qed.

(** [np.argmax] on a list without NaN: a first position of the maximum. *)
Lemma argmax_correct (d : float) (l : vec) (r : nat) :
  Forall not_nan l ->
  Np.argmax l = Ok r ->
  (r < length l)%nat /\
  (forall j, (j < length l)%nat -> (nth j l d <=? nth r l d) = true) /\
  (forall j, (j < r)%nat -> (nth j l d <? nth r l d) = true).
Proof.
  destruct l as [|x l']; simpl; [discriminate|].
  intros Hall H. inversion Hall as [|? ? Hx Hl']; subst.
  unfold Np.isnan in H. rewrite Hx in H. injection H as <-.
  apply (argmax_scan_correct d l' [x] x 0%nat); simpl; auto.
  - intros j Hj. assert (j = 0%nat) by lia. subst. now apply leb_refl.
  - intros j Hj. lia.
Qed.

Lemma argmax_scan_bound (rest : vec) (mp : float) (mi i : nat) :
  (mi < i)%nat -> (Np.argmax_scan mp mi i rest < i + length rest)%nat.
Proof.
  revert mp mi i. induction rest as [|x rest IH]; intros mp mi i H; simpl; [lia|].
  destruct (x <=? mp).
  - specialize (IH mp mi (S i)). lia.
  - destruct (Np.isnan x); [lia|]. specialize (IH x i (S i)). lia.
Qed.

Lemma argmax_bound (l : vec) (r : nat) : Np.argmax l = Ok r -> (r < length l)%nat.
Proof.
  destruct l as [|x l']; simpl; [discriminate|]. intros H. injection H as <-.
  destruct (Np.isnan x); [lia|].
  pose proof (argmax_scan_bound l' x 0%nat 1%nat). lia.
Qed.
End NpFacts.


(** ** Facts about the result monad and the distance routine *)

Module SkFacts.
Import NpFacts.
Local Open Scope float_scope.

Lemma rbind_ok {A B} (r : result A) (f : A -> result B) (b : B) :
  rbind r f = Ok b -> exists a, r = Ok a /\ f a = Ok b.
Proof. destruct r; simpl; [eauto | discriminate]. Qed.

Lemma rmap_ok {A B} (f : A -> result B) (l : list A) (bs : list B) :
  rmap f l = Ok bs <-> Forall2 (fun a b => f a = Ok b) l bs.
Proof.
  revert bs. induction l as [|a l IH]; intros bs; simpl.
  - split; intros H.
    + injection H as <-. constructor.
    + inversion H. reflexivity.
  - split; intros H.
    + apply rbind_ok in H as (b & Hb & H).
      apply rbind_ok in H as (bs' & Hbs & H). injection H as <-.
      constructor; [assumption | now apply IH].
    + inversion H as [|? b ? bs' Hb Hbs]; subst.
      rewrite Hb. simpl. apply IH in Hbs. rewrite Hbs. reflexivity.
Qed.

Lemma rmap_total {A B} (f : A -> result B) (l : list A) :
  Forall (fun a => exists b, f a = Ok b) l -> exists bs, rmap f l = Ok bs.
Proof.
  induction 1 as [|a l [b Hb] _ [bs Hbs]]; simpl; [eauto|].
  rewrite Hb, Hbs. simpl. eauto.
Qed.

Lemma check_array_ok (A A' : matrix) :
  Sk.check_array A = Ok A' <->
  A' = A /\ Sk.all_finite A = true /\ A <> [] /\ (0 < ncols A)%nat.
Proof.
  unfold Sk.check_array.
  destruct (Sk.all_finite A); simpl.
  - destruct A as [|r A0]; simpl.
    + split; [discriminate | intros (_ & _ & H & _); congruence].
    + destruct (length r) eqn:E; simpl.
      * split; [discriminate | intros (_ & _ & _ & H); lia].
      * split.
        -- intros H. injection H as <-. repeat split; [discriminate | lia].
        -- intros (-> & _). reflexivity.
  - split; [discriminate | intros (_ & H & _); discriminate].
Qed.

Lemma check_array_raise (A : matrix) (e : error) :
  Sk.check_array A = Raise e -> e = NonFiniteInput \/ e = EmptyArray.
Proof.
  unfold Sk.check_array.
  destruct (negb (Sk.all_finite A)); [intros H; injection H; auto|].
  destruct (Nat.eqb (length A) 0); [intros H; injection H; auto|].
  destruct (Nat.eqb (ncols A) 0); [intros H; injection H; auto|discriminate].
Qed.

Lemma cosine_distances_ok (X C D : matrix) :
  Sk.cosine_distances X C = Ok D <->
  D = distance_table X C /\
  Sk.all_finite X = true /\ X <> [] /\ (0 < ncols X)%nat /\
  Sk.all_finite C = true /\ C <> [] /\ ncols C = ncols X.
Proof.
  unfold Sk.cosine_distances, Sk.cosine_similarity, Sk.check_pairwise_arrays.
  split.
  - intros H.
    apply rbind_ok in H as (S & HS & H). injection H as <-.
    apply rbind_ok in HS as ([X' C'] & HXY & HS). injection HS as <-.
    apply rbind_ok in HXY as (X1 & HX & HXY).
    apply rbind_ok in HXY as (C1 & HC & HXY).
    apply check_array_ok in HX as (-> & HfX & HnX & HcX).
    apply check_array_ok in HC as (-> & HfC & HnC & HcC).
    destruct (Nat.eqb (ncols X) (ncols C)) eqn:E; [|discriminate].
    injection HXY as <- <-. apply Nat.eqb_eq in E. simpl.
    repeat split; auto.
    unfold distance_table, distances_of_row. rewrite !map_map.
    apply map_ext. intros x. rewrite !map_map. reflexivity.
  - intros (-> & HfX & HnX & HcX & HfC & HnC & Hc).
    assert (HX : Sk.check_array X = Ok X) by (apply check_array_ok; auto).
    assert (HC : Sk.check_array C = Ok C)
      by (apply check_array_ok; repeat split; auto; lia).
    rewrite HX, HC. simpl. rewrite <- Hc, Nat.eqb_refl. simpl.
    unfold distance_table, distances_of_row. rewrite !map_map. f_equal.
    apply map_ext. intros x. rewrite !map_map. reflexivity.
Qed.

Lemma cosine_distances_raise (X C : matrix) (e : error) :
  Sk.cosine_distances X C = Raise e ->
  e = NonFiniteInput \/ e = EmptyArray \/ e = IncompatibleDimension.
Proof.
  unfold Sk.cosine_distances, Sk.cosine_similarity, Sk.check_pairwise_arrays.
  destruct (Sk.check_array X) as [X'|e1] eqn:HX; simpl.
  - destruct (Sk.check_array C) as [C'|e2] eqn:HC; simpl.
    + destruct (Nat.eqb (ncols X') (ncols C')); simpl; [discriminate|].
      intros H; injection H; auto.
    + intros H; injection H as <-. apply check_array_raise in HC. tauto.
  - intros H; injection H as <-. apply check_array_raise in HX. tauto.
Qed.

Lemma distance_table_length (X C : matrix) :
  length (distance_table X C) = length X.
Proof. unfold distance_table. apply length_map. Qed.

Lemma distance_table_rows (X C : matrix) :
  Forall (fun row => length row = length C) (distance_table X C).
Proof.
  unfold distance_table. apply Forall_forall. intros row Hin.
  apply in_map_iff in Hin as (x & <- & _). apply length_map.
Qed.

(** [np.argmin(distances, axis=1)] on a table with at least one column. *)
Lemma argmin_axis1_total (D : matrix) (k : nat) :
  (0 < k)%nat -> Forall (fun row => length row = k) D ->
  exists labels, Np.argmin_axis1 D = Ok labels.
Proof.
  intros Hk HD. apply rmap_total.
  eapply Forall_impl; [|exact HD]. intros row Hrow.
  apply argmin_ok. destruct row; simpl in *; [lia | discriminate].
Qed.

Lemma argmin_axis1_bound (D : matrix) (k : nat) (labels : list nat) :
  Forall (fun row => length row = k) D ->
  Np.argmin_axis1 D = Ok labels ->
  length labels = length D /\ Forall (fun l => (l < k)%nat) labels.
Proof.
  intros HD H. apply rmap_ok in H.
  induction H as [|row l D' labels' Hl _ IH]; simpl; [auto|].
  inversion HD as [|? ? Hrow HD']; subst.
  destruct (IH HD') as [IH1 IH2]. split; [lia|].
  constructor; [|assumption]. now apply argmin_bound.
Qed.

Lemma argmin_axis1_raise (D : matrix) (e : error) :
  Np.argmin_axis1 D = Raise e -> e = EmptySequence.
Proof.
  unfold Np.argmin_axis1. induction D as [|row D IH]; simpl; [discriminate|].
  destruct row as [|x row]; simpl; [intros H; now injection H|].
  destruct (rmap Np.argmin D); simpl; [discriminate|].
  intros H; injection H as <-. now apply IH.
Qed.
End SkFacts.


(** ** Facts about the refinement loops *)

Module LoopFacts.
Import NpFacts SkFacts.

Lemma recompute_centroids_length (X : matrix) (labels : list nat) (k : nat) :
  length (recompute_centroids X labels k) = k.
Proof. unfold recompute_centroids. now rewrite length_map, length_seq. Qed.

Lemma lloyd_step_ok (X : matrix) (k : nat) (C : matrix) (labels : list nat) (C' : matrix) :
  lloyd_step X k C = Ok (labels, C') <->
  Sk.cosine_distances X C = Ok (distance_table X C) /\
  Np.argmin_axis1 (distance_table X C) = Ok labels /\
  C' = recompute_centroids X labels k.
Proof.
  unfold lloyd_step. split.
  - intros H. apply rbind_ok in H as (D & HD & H).
    apply rbind_ok in H as (l & Hl & H). injection H as <- <-.
    pose proof (proj1 (cosine_distances_ok X C D) HD) as (-> & _).
    auto.
  - intros (HD & Hl & ->). rewrite HD. simpl. rewrite Hl. reflexivity.
Qed.

Lemma lloyd_step_labels (X : matrix) (k : nat) (C : matrix) (labels : list nat) (C' : matrix) :
  lloyd_step X k C = Ok (labels, C') ->
  length labels = length X /\ Forall (fun l => l < length C) labels.
Proof.
  intros H. apply lloyd_step_ok in H as (_ & Hl & _).
  apply (argmin_axis1_bound _ (length C)) in Hl.
  - now rewrite distance_table_length in Hl.
  - apply distance_table_rows.
Qed.

Lemma lloyd_step_raise (X : matrix) (k : nat) (C : matrix) (e : error) :
  lloyd_step X k C = Raise e ->
  e = NonFiniteInput \/ e = EmptyArray \/ e = IncompatibleDimension \/ e = EmptySequence.
Proof.
  unfold lloyd_step.
  destruct (Sk.cosine_distances X C) as [D|e1] eqn:HD; simpl.
  - destruct (Np.argmin_axis1 D) as [l|e2] eqn:Hl; simpl; [discriminate|].
    intros H; injection H as <-. apply argmin_axis1_raise in Hl. tauto.
  - intros H; injection H as <-. apply cosine_distances_raise in HD. tauto.
Qed.

(** Both loops run [lloyd_step] as their body. *)
Lemma perform_clustering_loop_step n X k C l it :
  perform_clustering_loop (S n) X k C l it =
  match lloyd_step X k C with
  | Raise e => Raise e
  | Ok (l', C') =>
      if Np.all_eq C C' then Ok (l', S it)
      else perform_clustering_loop n X k C' l' (S it)
  end.
Proof.
  simpl. unfold lloyd_step.
  destruct (Sk.cosine_distances X C) as [D|e]; simpl; [|reflexivity].
  destruct (Np.argmin_axis1 D) as [l'|e]; simpl; reflexivity.
Qed.

Lemma find_optimal_loop_step n X k C l it :
  find_optimal_loop (S n) X k C l it =
  match lloyd_step X k C with
  | Raise e => Raise e
  | Ok (l', C') =>
      if Np.all_eq C C' then Ok (l', S it)
      else find_optimal_loop n X k C' l' (S it)
  end.
Proof.
  simpl. unfold lloyd_step.
  destruct (Sk.cosine_distances X C) as [D|e]; simpl; [|reflexivity].
  destruct (Np.argmin_axis1 D) as [l'|e]; simpl; reflexivity.
Qed.

(** The loop of [find_optimal_clusters] and the loop of [perform_clustering]
    compute the same thing. *)
Lemma loops_agree n X k C l it :
  find_optimal_loop n X k C l it = perform_clustering_loop n X k C l it.
Proof.
  revert C l it. induction n as [|n IH]; intros C l it; [reflexivity|].
  rewrite find_optimal_loop_step, perform_clustering_loop_step.
  destruct (lloyd_step X k C) as [[l' C']|e]; [|reflexivity].
  destruct (Np.all_eq C C'); [reflexivity | apply IH].
Qed.

Lemma centroids_after_shift i X k C :
  centroids_after (S i) X k C =
  rbind (lloyd_step X k C) (fun r => centroids_after i X k (snd r)).
Proof.
  induction i as [|i IH].
  - simpl. destruct (lloyd_step X k C); reflexivity.
  - change (centroids_after (S (S i)) X k C)
      with (rbind (centroids_after (S i) X k C)
                  (fun C1 => rbind (lloyd_step X k C1) (fun r => Ok (snd r)))).
    rewrite IH. destruct (lloyd_step X k C) as [r|e]; reflexivity.
Qed.

Lemma iteration_test_zero X k C l' C' b :
  lloyd_step X k C = Ok (l', C') ->
  iteration_test X k C 0 b <-> Np.all_eq C C' = b.
Proof.
  intros Hs. unfold iteration_test. simpl. split.
  - intros (C1 & l1 & C1' & HC & H1 & Hb). injection HC as <-.
    rewrite Hs in H1. now injection H1 as <- <-.
  - intros Hb. exists C, l', C'. auto.
Qed.

Lemma iteration_test_shift X k C l' C' i b :
  lloyd_step X k C = Ok (l', C') ->
  iteration_test X k C (S i) b <-> iteration_test X k C' i b.
Proof.
  intros Hs. unfold iteration_test.
  rewrite centroids_after_shift, Hs. simpl. reflexivity.
Qed.

Lemma stops_after_raise cap X k C labels n e :
  lloyd_step X k C = Raise e -> ~ stops_after cap X k C labels n.
Proof.
  intros Hs (Hn & Hbefore & C1 & C1' & HC & H1 & _).
  destruct (Nat.eq_dec n 1) as [->|Hne].
  - simpl in HC. injection HC as <-. congruence.
  - destruct (Hbefore 0) as (C2 & l2 & C2' & HC2 & H2 & _); [lia|].
    simpl in HC2. injection HC2 as <-. congruence.
Qed.

Lemma stops_after_one cap X k C l' C' labels :
  lloyd_step X k C = Ok (l', C') ->
  stops_after cap X k C labels 1 <->
  1 <= cap /\ labels = l' /\ (Np.all_eq C C' = true \/ 1 = cap).
Proof.
  intros Hs. unfold stops_after. simpl. split.
  - intros (Hn & _ & C1 & C1' & HC & H1 & Hb). injection HC as <-.
    rewrite Hs in H1. injection H1 as <- <-. repeat split; auto; lia.
  - intros (Hcap & -> & Hb). split; [lia|]. split.
    + intros i Hi. lia.
    + exists C, C'. auto.
Qed.

Lemma stops_after_succ cap X k C l' C' labels n :
  lloyd_step X k C = Ok (l', C') ->
  1 <= n ->
  stops_after (S cap) X k C labels (S n) <->
  Np.all_eq C C' = false /\ stops_after cap X k C' labels n.
Proof.
  intros Hs Hn. unfold stops_after.
  replace (S n - 1) with (S (n - 1)) by lia.
  rewrite centroids_after_shift, Hs. simpl.
  split.
  - intros (Hb & Hbefore & C1 & C1' & HC & H1 & Hstop). split.
    + apply (iteration_test_zero X k C _ _ _ Hs). apply Hbefore. lia.
    + split; [lia|]. split.
      * intros i Hi. apply (iteration_test_shift X k C _ _ i _ Hs). apply Hbefore. lia.
      * exists C1, C1'. repeat split; auto. destruct Hstop; [auto | right; lia].
  - intros (Hne & Hb & Hbefore & C1 & C1' & HC & H1 & Hstop).
    split; [lia|]. split.
    + intros [|i] Hi.
      * now apply (iteration_test_zero X k C _ _ _ Hs).
      * apply (iteration_test_shift X k C _ _ i _ Hs). apply Hbefore. lia.
    + exists C1, C1'. repeat split; auto. destruct Hstop; [auto | right; lia].
Qed.

(** The loop function against the indexed description of its run. *)
Lemma perform_clustering_loop_stops cap X k :
  forall C l it labels m,
    0 < cap ->
    perform_clustering_loop cap X k C l it = Ok (labels, m) <->
    exists n, m = it + n /\ stops_after cap X k C labels n.
Proof.
  induction cap as [|cap IH]; intros C l it labels m Hcap; [lia|].
  rewrite perform_clustering_loop_step.
  destruct (lloyd_step X k C) as [[l' C']|e] eqn:Hs.
  - destruct (Np.all_eq C C') eqn:Hb.
    + split.
      * intros H. injection H as <- <-. exists 1. split; [lia|].
        apply (stops_after_one _ X k C _ _ _ Hs). repeat split; auto; lia.
      * intros (n & -> & Hn).
        destruct (Nat.eq_dec n 1) as [->|Hne].
        -- apply (stops_after_one _ X k C _ _ _ Hs) in Hn as (_ & -> & _).
           f_equal. f_equal. lia.
        -- destruct n as [|n]; [destruct Hn; lia|].
           apply (stops_after_succ _ X k C _ _ _ _ Hs) in Hn as [Hn _]; [congruence | lia].
    + destruct cap as [|cap].
      * simpl. split.
        -- intros H. injection H as <- <-. exists 1. split; [lia|].
           apply (stops_after_one _ X k C _ _ _ Hs). repeat split; auto.
        -- intros (n & -> & Hn).
           assert (n = 1) by (destruct Hn; lia). subst n.
           apply (stops_after_one _ X k C _ _ _ Hs) in Hn as (_ & -> & _).
           f_equal. f_equal. lia.
      * rewrite IH by lia. split.
        -- intros (n & -> & Hn). exists (S n). split; [lia|].
           apply (stops_after_succ _ X k C _ _ _ _ Hs); [destruct Hn; lia | auto].
        -- intros (n & -> & Hn).
           destruct n as [|n]; [destruct Hn; lia|].
           destruct (Nat.eq_dec n 0) as [->|Hne].
           ++ apply (stops_after_one _ X k C _ _ _ Hs) in Hn as (_ & _ & [Hn|Hn]);
                [congruence | lia].
           ++ apply (stops_after_succ _ X k C _ _ _ _ Hs) in Hn as [_ Hn]; [|lia].
              exists n. split; [lia | assumption].
  - split; [discriminate|].
    intros (n & _ & Hn). exfalso. exact (stops_after_raise _ X k C _ _ _ Hs Hn).
Qed.
Lemma raises_during_first cap X k C e e' n :
  lloyd_step X k C = Raise e' ->
  raises_during cap X k C e n <-> 1 <= cap /\ n = 1 /\ e = e'.
Proof.
  intros Hs. unfold raises_during. split.
  - intros (Hn & Hbefore & C1 & HC & H1).
    destruct (Nat.eq_dec n 1) as [->|Hne].
    + simpl in HC. injection HC as <-. rewrite Hs in H1. injection H1 as <-.
      repeat split; lia.
    + destruct (Hbefore 0) as (C2 & l2 & C2' & HC2 & H2 & _); [lia|].
      simpl in HC2. injection HC2 as <-. congruence.
  - intros (Hcap & -> & ->). split; [lia|]. split.
    + intros i Hi. simpl in Hi. lia.
    + exists C. simpl. auto.
Qed.

Lemma raises_during_next cap X k C l' C' e n :
  lloyd_step X k C = Ok (l', C') ->
  raises_during (S cap) X k C e n <->
  exists n', n = S n' /\ Np.all_eq C C' = false /\ raises_during cap X k C' e n'.
Proof.
  intros Hs. unfold raises_during. split.
  - intros (Hn & Hbefore & C1 & HC & H1).
    destruct n as [|[|n']]; [lia| |].
    + simpl in HC. injection HC as <-. congruence.
    + exists (S n'). split; [reflexivity|].
      replace (S (S n') - 1) with (S (S n' - 1)) in * by lia.
      rewrite centroids_after_shift, Hs in HC. simpl in HC.
      split; [apply (iteration_test_zero X k C _ _ _ Hs); apply Hbefore; lia|].
      split; [lia|]. split.
      * intros i Hi. apply (iteration_test_shift X k C _ _ i _ Hs).
        apply Hbefore. lia.
      * exists C1. auto.
  - intros (n' & -> & Hne & Hn & Hbefore & C1 & HC & H1).
    split; [lia|]. split.
    + intros [|i] Hi.
      * now apply (iteration_test_zero X k C _ _ _ Hs).
      * apply (iteration_test_shift X k C _ _ i _ Hs). apply Hbefore. lia.
    + exists C1. replace (S n' - 1) with (S (n' - 1)) by lia.
      rewrite centroids_after_shift, Hs. simpl. auto.
Qed.

(** The runs of the loop that are aborted by an exception. *)
Lemma perform_clustering_loop_raises cap X k :
  forall C l it e,
    perform_clustering_loop cap X k C l it = Raise e <->
    exists n, raises_during cap X k C e n.
Proof.
  induction cap as [|cap IH]; intros C l it e.
  - simpl. split; [discriminate|]. intros (n & Hn & _). lia.
  - rewrite perform_clustering_loop_step.
    destruct (lloyd_step X k C) as [[l' C']|e'] eqn:Hs.
    + destruct (Np.all_eq C C') eqn:Hb.
      * split; [discriminate|]. intros (n & Hn).
        apply (raises_during_next _ X k C _ _ _ _ Hs) in Hn as (n' & _ & Hne & _).
        congruence.
      * rewrite IH. split.
        -- intros (n & Hn). exists (S n).
           apply (raises_during_next _ X k C _ _ _ _ Hs). eauto.
        -- intros (n & Hn).
           apply (raises_during_next _ X k C _ _ _ _ Hs) in Hn as (n' & _ & _ & Hn).
           eauto.
    + split.
      * intros H. injection H as <-. exists 1.
        apply (raises_during_first _ X k C _ _ _ Hs). repeat split; lia.
      * intros (n & Hn).
        apply (raises_during_first _ X k C _ _ _ Hs) in Hn as (_ & _ & ->).
        reflexivity.
Qed.
End LoopFacts.


(** ** The two functions *)

Section EngineFacts.
Import NpFacts SkFacts LoopFacts.

Variable rng : Type.
Variable seed_state : Z -> rng.
Variable draw : rng -> nat -> nat -> list nat * rng.
Variable silhouette_score : matrix -> list nat -> result float.

Lemma choice_error_none (N : nat) (size : Z) :
  choice_error N size = None <-> (0 <= size <= Z.of_nat N)%Z.
Proof.
  unfold choice_error.
  destruct (Nat.eqb_spec N 0) as [->|HN]; cbn [andb].
  - destruct (Z.eqb_spec size 0) as [->|Hs]; cbn [negb].
    + cbn. split; [lia | reflexivity].
    + split; [discriminate | cbn; lia].
  - destruct (Z.ltb_spec (Z.of_nat N) size); [split; [discriminate | lia]|].
    destruct (Z.ltb_spec size 0); [split; [discriminate | lia]|].
    split; [lia | reflexivity].
Qed.

Lemma choice_error_some (N : nat) (size : Z) (e : error) :
  choice_error N size = Some e ->
  e = EmptyPopulation \/ e = SampleLargerThanPopulation \/ e = NegativeDimensions.
Proof.
  unfold choice_error.
  destruct (Nat.eqb N 0 && negb (size =? 0)%Z); [intros H; injection H; auto|].
  destruct (Z.of_nat N <? size)%Z; [intros H; injection H; auto|].
  destruct (size <? 0)%Z; [intros H; injection H; auto | discriminate].
Qed.

Lemma perform_clustering_run_eq (X : matrix) (best_k : Z) (g : rng) :
  perform_clustering_run seed_state draw X best_k g =
  match choice_error (length X) best_k with
  | Some e => (Raise e, seed_state 42%Z)
  | None =>
      (perform_clustering_loop 100 X (Z.to_nat best_k)
         (Np.take X (seeded_indices seed_state draw (length X) (Z.to_nat best_k))) [] 0,
       seeded_state seed_state draw (length X) (Z.to_nat best_k))
  end.
Proof.
  unfold perform_clustering_run, bind, np_random_seed, np_random_choice, lift,
    seeded_indices, seeded_state.
  destruct (choice_error (length X) best_k); [reflexivity|].
  destruct (draw (seed_state 42%Z) (length X) (Z.to_nat best_k)) as [idx g'].
  reflexivity.
Qed.

Lemma perform_clustering_eq (X : matrix) (best_k : Z) (g : rng) :
  perform_clustering seed_state draw X best_k g =
  match perform_clustering_run seed_state draw X best_k g with
  | (Ok r, g') => (Ok (fst r), g')
  | (Raise e, g') => (Raise e, g')
  end.
Proof.
  unfold perform_clustering, bind, ret.
  destruct (perform_clustering_run seed_state draw X best_k g) as [[r|e] g'];
    reflexivity.
Qed.

Lemma find_optimal_trial_eq (X : matrix) (k : Z) (g : rng) :
  find_optimal_trial seed_state draw silhouette_score X k g =
  match choice_error (length X) k with
  | Some e => (Raise e, seed_state 42%Z)
  | None =>
      (r <- find_optimal_loop 100 X (Z.to_nat k)
              (Np.take X (seeded_indices seed_state draw (length X) (Z.to_nat k))) [] 0 ;;
       s <- silhouette_score X (fst r) ;;
       Ok (k, fst r, s),
       seeded_state seed_state draw (length X) (Z.to_nat k))
  end.
Proof.
  unfold find_optimal_trial, bind, np_random_seed, np_random_choice, lift, ret,
    seeded_indices, seeded_state.
  destruct (choice_error (length X) k); [reflexivity|].
  destruct (draw (seed_state 42%Z) (length X) (Z.to_nat k)) as [idx g'].
  cbn [fst snd].
  destruct (find_optimal_loop 100 X (Z.to_nat k) (Np.take X idx) [] 0) as [r|e];
    cbn [rbind]; [|reflexivity].
  destruct (silhouette_score X (fst r)); reflexivity.
Qed.

(** C4: [perform_clustering] starts by reseeding the global generator, so its
    labelling (and the state it leaves behind) is a function of the matrix and
    the cluster count alone: two calls agree whatever the generator state was
    before each call.  The same holds for every trial of
    [find_optimal_clusters]. *)
Theorem clustering_is_deterministic (X : matrix) (k : Z) (g1 g2 : rng) :
  perform_clustering seed_state draw X k g1 = perform_clustering seed_state draw X k g2 /\
  find_optimal_trial seed_state draw silhouette_score X k g1 =
  find_optimal_trial seed_state draw silhouette_score X k g2.
Proof.
  split.
  - rewrite !perform_clustering_eq, !perform_clustering_run_eq. reflexivity.
  - rewrite !find_optimal_trial_eq. reflexivity.
Qed.

Lemma take_length (X : matrix) (idx : list nat) : length (Np.take X idx) = length idx.
Proof. unfold Np.take. apply length_map. Qed.

Lemma centroids_after_length (i : nat) (X : matrix) (k : nat) (C0 C : matrix) :
  length C0 = k -> centroids_after i X k C0 = Ok C -> length C = k.
Proof.
  intros H0. destruct i as [|i]; simpl.
  - intros H. injection H as <-. assumption.
  - intros H. apply rbind_ok in H as (C1 & _ & H).
    apply rbind_ok in H as ([l C'] & Hs & H). injection H as <-.
    apply lloyd_step_ok in Hs as (_ & _ & ->). simpl.
    apply recompute_centroids_length.
Qed.

(** Labels returned by the loop index the [k] centroids. *)
Lemma perform_clustering_loop_labels (X : matrix) (k : nat) (C0 : matrix)
    (labels : list nat) (n : nat) :
  length C0 = k ->
  perform_clustering_loop 100 X k C0 [] 0 = Ok (labels, n) ->
  length labels = length X /\ Forall (fun l => l < k) labels.
Proof.
  intros H0 H.
  apply perform_clustering_loop_stops in H as (n' & _ & Hn); [|lia].
  destruct Hn as (_ & _ & C & C' & HC & Hs & _).
  apply centroids_after_length in HC; [|assumption].
  apply lloyd_step_labels in Hs. now rewrite HC in Hs.
Qed.

(** What a successful trial of the model selection has computed. *)
Lemma find_optimal_trial_ok (X : matrix) (k : Z) (g g' : rng) (c : candidate) :
  find_optimal_trial seed_state draw silhouette_score X k g = (Ok c, g') ->
  (0 <= k <= Z.of_nat (length X))%Z /\
  cand_k c = k /\
  (exists n,
     find_optimal_loop 100 X (Z.to_nat k)
       (Np.take X (seeded_indices seed_state draw (length X) (Z.to_nat k))) [] 0
     = Ok (cand_labels c, n)) /\
  silhouette_score X (cand_labels c) = Ok (cand_score c).
Proof.
  rewrite find_optimal_trial_eq.
  destruct (choice_error (length X) k) eqn:E; [discriminate|].
  apply choice_error_none in E.
  destruct (find_optimal_loop 100 X (Z.to_nat k)
              (Np.take X (seeded_indices seed_state draw (length X) (Z.to_nat k))) [] 0)
    as [[l n]|e] eqn:Hloop; cbn [rbind fst]; [|discriminate].
  destruct (silhouette_score X l) as [s|e] eqn:Hs; cbn [rbind]; [|discriminate].
  intros H. injection H as <- _.
  unfold cand_k, cand_labels, cand_score. cbn [fst snd].
  repeat split; try lia; eauto.
Qed.

(** The candidates are produced in the order of [ks], one per [k]. *)
Lemma find_optimal_for_ok (ks : list Z) (X : matrix) :
  forall (acc cands : list candidate) (g g' : rng),
    find_optimal_for seed_state draw silhouette_score ks X acc g = (Ok cands, g') ->
    exists cs,
      cands = acc ++ cs /\
      Forall2 (fun k c => exists g0 g1,
                 find_optimal_trial seed_state draw silhouette_score X k g0 = (Ok c, g1))
              ks cs.
Proof.
  induction ks as [|k ks IH]; intros acc cands g g' H.
  - cbn in H. unfold ret in H. injection H as <- _.
    exists []. rewrite app_nil_r. split; [reflexivity | constructor].
  - cbn [find_optimal_for] in H. unfold bind in H.
    destruct (find_optimal_trial seed_state draw silhouette_score X k g)
      as [[c|e] g1] eqn:Ht; [|discriminate].
    apply IH in H as (cs & -> & Hcs).
    exists (c :: cs). rewrite <- app_assoc. split; [reflexivity|].
    constructor; [eauto | assumption].
Qed.

(** Labellings of [perform_clustering], by its equations. *)
Lemma perform_clustering_labels (X : matrix) (k : Z) (g g' : rng) (labels : list nat) :
  draw_ok draw ->
  perform_clustering seed_state draw X k g = (Ok labels, g') ->
  length labels = length X /\
  Forall (fun l => (0 <= Z.of_nat l < k)%Z) labels.
Proof.
  intros Hdraw H.
  rewrite perform_clustering_eq, perform_clustering_run_eq in H.
  destruct (choice_error (length X) k) eqn:E; [discriminate|].
  apply choice_error_none in E.
  destruct (perform_clustering_loop 100 X (Z.to_nat k)
              (Np.take X (seeded_indices seed_state draw (length X) (Z.to_nat k))) [] 0)
    as [[l n]|e] eqn:Hloop; [|discriminate].
  injection H as <- _. cbn [fst].
  apply perform_clustering_loop_labels in Hloop.
  - destruct Hloop as [Hlen Hall]. split; [assumption|].
    eapply Forall_impl; [|exact Hall]. cbv beta. intros l0 Hl0. lia.
  - rewrite take_length. unfold seeded_indices.
    apply Hdraw. lia.
Qed.

(** C6: the labelling returned by [perform_clustering] has one entry per row
    of the matrix and every entry lies in [0, k); the same holds for the
    labelling of every candidate of [find_optimal_clusters]. *)
Theorem labelling_shape (X : matrix) (k : Z) (g g' : rng) (labels : list nat) :
  draw_ok draw ->
  perform_clustering seed_state draw X k g = (Ok labels, g') ->
  (length labels = length X /\
   Forall (fun l => (0 <= Z.of_nat l < k)%Z) labels) /\
  (forall g1 g2 cands,
     find_optimal_candidates seed_state draw silhouette_score X g1 = (Ok cands, g2) ->
     Forall (fun c =>
               length (cand_labels c) = length X /\
               Forall (fun l => (0 <= Z.of_nat l < cand_k c)%Z) (cand_labels c))
            cands).
Proof.
  intros Hdraw H. split; [exact (perform_clustering_labels X k g g' labels Hdraw H)|].
  intros g1 g2 cands Hc. unfold find_optimal_candidates in Hc.
  apply find_optimal_for_ok in Hc as (cs & -> & Hcs). cbn [app].
  clear H. induction Hcs as [|k0 c ks cs (g0 & g3 & Ht) _ IH]; constructor; [|exact IH].
  apply find_optimal_trial_ok in Ht as (Hrange & Hk & (n & Hloop) & _).
  rewrite loops_agree in Hloop.
  apply perform_clustering_loop_labels in Hloop.
  - destruct Hloop as [Hlen Hall]. split; [assumption|].
    eapply Forall_impl; [|exact Hall]. cbv beta. intros l0 Hl0. lia.
  - rewrite take_length. unfold seeded_indices. apply Hdraw. lia.
Qed.

Lemma K_nth (i : nat) : i < 9 -> nth i K 0%Z = (2 + Z.of_nat i)%Z.
Proof.
  intros H. do 9 (destruct i as [|i]; [reflexivity|]). lia.
Qed.

Lemma Forall2_nth {A B} (R : A -> B -> Prop) (l1 : list A) (l2 : list B) :
  Forall2 R l1 l2 ->
  length l1 = length l2 /\
  forall i d1 d2, i < length l1 -> R (nth i l1 d1) (nth i l2 d2).
Proof.
  induction 1 as [|a b l1 l2 Hab _ [IHlen IHnth]]; simpl.
  - split; [reflexivity | intros; lia].
  - split; [lia|]. intros [|i] d1 d2 Hi; [assumption|]. apply IHnth. lia.
Qed.

(** The steps of [find_optimal_clusters], once it has returned. *)
Lemma find_optimal_clusters_ok (X : matrix) (g g' : rng) (best_k : Z) :
  find_optimal_clusters seed_state draw silhouette_score X g = (Ok best_k, g') ->
  exists cands i,
    find_optimal_candidates seed_state draw silhouette_score X g = (Ok cands, g') /\
    Forall2 (fun k c => exists g0 g1,
               find_optimal_trial seed_state draw silhouette_score X k g0 = (Ok c, g1))
            K cands /\
    Np.argmax (map cand_score cands) = Ok i /\
    i < 9 /\
    best_k = nth i K 0%Z.
Proof.
  unfold find_optimal_clusters, bind, lift, ret. intros H.
  destruct (find_optimal_candidates seed_state draw silhouette_score X g)
    as [[cands|e] g1] eqn:Hc; [|discriminate].
  destruct (Np.argmax (map cand_score cands)) as [i|e] eqn:Hi; [|discriminate].
  injection H as <- <-.
  pose proof Hc as Hc'. unfold find_optimal_candidates in Hc'.
  apply find_optimal_for_ok in Hc' as (cs & -> & Hcs). cbn [app] in *.
  exists cs, i. repeat split; auto.
  apply argmax_bound in Hi. rewrite length_map in Hi.
  apply Forall2_nth in Hcs as [Hlen _]. cbn in Hlen. lia.
Qed.

Lemma candidates_of_K (X : matrix) (g g' : rng) (cands : list candidate) :
  find_optimal_candidates seed_state draw silhouette_score X g = (Ok cands, g') ->
  length cands = 9 /\
  forall j, j < 9 ->
    cand_k (nth j cands no_candidate) = nth j K 0%Z /\
    silhouette_score X (cand_labels (nth j cands no_candidate))
    = Ok (cand_score (nth j cands no_candidate)).
Proof.
  intros Hc. unfold find_optimal_candidates in Hc.
  apply find_optimal_for_ok in Hc as (cs & -> & Hcs). cbn [app].
  pose proof (Forall2_nth _ _ _ Hcs) as [Hlen Hnth]. cbn [K length] in Hlen.
  split; [lia|].
  intros j Hj. destruct (Hnth j 0%Z no_candidate) as (g0 & g1 & Ht); [cbn; lia|].
  apply find_optimal_trial_ok in Ht as (_ & Hk & _ & Hs). auto.
Qed.

(** C1: once the nine candidates k = 2..10 have been clustered and scored,
    [find_optimal_clusters] returns the [k] of one of them; provided no
    silhouette score is NaN, the score of the returned [k] is at least the
    score of every candidate, and every candidate with an equal score has a
    [k] that is not smaller.  The score of a candidate is the silhouette score
    of its labelling. *)
Theorem selection_returns_first_maximum
    (X : matrix) (g g' : rng) (cands : list candidate) :
  find_optimal_candidates seed_state draw silhouette_score X g = (Ok cands, g') ->
  Forall (fun c => is_nan (cand_score c) = false) cands ->
  exists best,
    In best cands /\
    find_optimal_clusters seed_state draw silhouette_score X g
    = (Ok (cand_k best), g') /\
    map cand_k cands = K /\
    (2 <= cand_k best <= 10)%Z /\
    forall c, In c cands ->
      silhouette_score X (cand_labels c) = Ok (cand_score c) /\
      (cand_score c <=? cand_score best)%float = true /\
      ((cand_score c =? cand_score best)%float = true ->
       (cand_k best <= cand_k c)%Z).
Proof.
  intros Hc Hnan.
  destruct (candidates_of_K X g g' cands Hc) as [Hlen Hks].
  assert (Hk : forall j, j < 9 -> cand_k (nth j cands no_candidate) = nth j K 0%Z)
    by (intros j Hj; apply Hks; exact Hj).
  assert (Hscores : Forall not_nan (map cand_score cands)).
  { apply Forall_forall. intros s Hs. apply in_map_iff in Hs as (c & <- & Hin).
    rewrite Forall_forall in Hnan. now apply Hnan. }
  destruct (Np.argmax (map cand_score cands)) as [i|e] eqn:Hi;
    [|destruct cands; [discriminate Hlen | discriminate Hi]].
  destruct (argmax_correct (cand_score no_candidate) _ _ Hscores Hi)
    as (Hi9 & Hle & Hlt).
  rewrite length_map in Hi9, Hle. rewrite Hlen in Hi9.
  exists (nth i cands no_candidate).
  split; [apply nth_In; lia|].
  split.
  { unfold find_optimal_clusters, bind, lift, ret. rewrite Hc, Hi.
    rewrite Hk by assumption. reflexivity. }
  split.
  { apply (nth_ext _ _ 0%Z 0%Z).
    - rewrite length_map. cbn. lia.
    - intros j Hj. rewrite length_map in Hj.
      change 0%Z with (cand_k no_candidate) at 1. rewrite map_nth.
      apply Hk. lia. }
  split; [rewrite Hk, K_nth by assumption; lia|].
  intros c Hin.
  apply (In_nth _ _ no_candidate) in Hin as (j & Hj & <-).
  specialize (Hle j Hj). rewrite !map_nth in Hle.
  split; [apply Hks; lia|]. split; [assumption|].
  intros Heq. rewrite (Hk i), (Hk j) by lia. rewrite !K_nth by lia.
  destruct (Nat.lt_ge_cases j i) as [Hji|Hij]; [|lia].
  specialize (Hlt j Hji). rewrite !map_nth in Hlt.
  apply FloatOrder.ltb_not_eqb in Hlt. congruence.
Qed.

(** C10: the labelling [perform_clustering] returns for the [k] chosen by
    [find_optimal_clusters] is the labelling that [find_optimal_clusters]
    computed and scored for that [k]. *)
Theorem selected_labelling_is_the_scored_one (X : matrix) (g g' : rng) (best_k : Z) :
  find_optimal_clusters seed_state draw silhouette_score X g = (Ok best_k, g') ->
  exists cands best,
    find_optimal_candidates seed_state draw silhouette_score X g = (Ok cands, g') /\
    In best cands /\
    cand_k best = best_k /\
    silhouette_score X (cand_labels best) = Ok (cand_score best) /\
    forall g2,
      fst (perform_clustering seed_state draw X best_k g2) = Ok (cand_labels best).
Proof.
  intros H.
  apply find_optimal_clusters_ok in H as (cands & i & Hc & Htrials & Hi & Hi9 & ->).
  pose proof (Forall2_nth _ _ _ Htrials) as [Hlen Hnth]. cbn [K length] in Hlen.
  exists cands, (nth i cands no_candidate).
  destruct (Hnth i 0%Z no_candidate) as (g0 & g1 & Ht); [cbn; lia|].
  apply find_optimal_trial_ok in Ht as (Hrange & Hk & (n & Hloop) & Hscore).
  split; [assumption|]. split; [apply nth_In; lia|].
  split; [assumption|]. split; [assumption|].
  intros g2. rewrite perform_clustering_eq, perform_clustering_run_eq.
  rewrite (proj2 (choice_error_none (length X) (nth i K 0%Z)) Hrange).
  rewrite loops_agree in Hloop. rewrite Hloop. reflexivity.
Qed.

End EngineFacts.


(** ** The refinement loop: stopping, assignment, empty clusters *)

Section Refinement.
Import FloatOrder NpFacts SkFacts LoopFacts.
Local Open Scope float_scope.

(** C7: the loop performs at most 100 iterations.  A run that yields labels
    has performed between 1 and 100 iterations; it ends at the first iteration
    whose recomputed centroids all compare equal (IEEE equality, no tolerance)
    to the centroids the iteration started from, and at the 100th iteration if
    there is no such iteration before; conversely such a run yields exactly
    these labels and this iteration count.  Both loops behave this way.  The
    only other runs are those aborted by the exception of a library call in
    one of the first 100 iterations. *)
Theorem loop_stops_at_first_fixpoint_or_cap
    (X : matrix) (k : nat) (C0 : matrix) (labels : list nat) (n : nat) :
  (perform_clustering_loop 100 X k C0 [] 0%nat = Ok (labels, n) <->
   stops_after 100 X k C0 labels n) /\
  (find_optimal_loop 100 X k C0 [] 0%nat = Ok (labels, n) <->
   stops_after 100 X k C0 labels n) /\
  (forall e,
     perform_clustering_loop 100 X k C0 [] 0%nat = Raise e <->
     exists m, raises_during 100 X k C0 e m).
Proof.
  assert (H : perform_clustering_loop 100 X k C0 [] 0%nat = Ok (labels, n) <->
              stops_after 100 X k C0 labels n).
  { rewrite perform_clustering_loop_stops by lia. split.
    - intros (n' & -> & Hn). exact Hn.
    - intros Hn. exists n. split; [reflexivity | assumption]. }
  split; [exact H|]. split; [rewrite loops_agree; exact H|].
  intros e. apply perform_clustering_loop_raises.
Qed.

Lemma Forall2_nth_error {A B} (R : A -> B -> Prop) (l1 : list A) (l2 : list B) :
  Forall2 R l1 l2 ->
  forall i a, nth_error l1 i = Some a -> exists b, nth_error l2 i = Some b /\ R a b.
Proof.
  induction 1 as [|a0 b0 l1 l2 Hab _ IH]; intros [|i] a Hi; simpl in *;
    try discriminate.
  - injection Hi as <-. eauto.
  - now apply IH.
Qed.

Lemma distance_table_rows_eq (X C : matrix) :
  distance_table X C = map (distances_of_row C) X.
Proof. reflexivity. Qed.

(** The label of a row is [np.argmin] of its distances. *)
Lemma lloyd_step_row (X : matrix) (k : nat) (C : matrix) (labels : list nat) (C' : matrix) :
  lloyd_step X k C = Ok (labels, C') ->
  forall i x, nth_error X i = Some x ->
    exists l, nth_error labels i = Some l /\ Np.argmin (distances_of_row C x) = Ok l.
Proof.
  intros Hs i x Hx. apply lloyd_step_ok in Hs as (_ & Hl & _).
  apply rmap_ok in Hl. rewrite distance_table_rows_eq in Hl.
  apply (Forall2_nth_error _ _ _ Hl). now apply map_nth_error.
Qed.










Lemma eqb_nan_r (x : float) : (x =? nan) = false.
Proof.
  rewrite eqb_spec. replace (Prim2SF nan) with S754_nan by reflexivity.
  destruct (Prim2SF x); reflexivity.
Qed.

Lemma mean_axis0_empty (D : nat) : Np.mean_axis0 D [] = repeat nan D.
Proof.
  unfold Np.mean_axis0, Np.sum_axis0. cbn [length].
  induction D as [|D IH]; [reflexivity|].
  cbn [repeat map]. rewrite IH. reflexivity.
Qed.

Lemma recompute_centroids_nth (X : matrix) (labels : list nat) (k j : nat) :
  (j < k)%nat ->
  nth j (recompute_centroids X labels k) [] =
  Np.mean_axis0 (ncols X) (Np.select X labels j).
Proof.
  intros Hj. unfold recompute_centroids.
  rewrite (nth_indep _ [] (Np.mean_axis0 (ncols X) (Np.select X labels 0)))
    by (rewrite length_map, length_seq; exact Hj).
  rewrite (map_nth (fun j => Np.mean_axis0 (ncols X) (Np.select X labels j))).
  rewrite seq_nth by exact Hj. reflexivity.
Qed.

Lemma all_eq_false_at (C C' : matrix) (j : nat) :
  (j < length C)%nat -> (j < length C')%nat ->
  Np.vec_eqb (nth j C []) (nth j C' []) = false ->
  Np.all_eq C C' = false.
Proof.
  unfold Np.all_eq. revert C' j.
  induction C as [|c C IH]; intros [|c' C'] j HC HC' H; simpl in *; try lia.
  destruct j as [|j].
  - rewrite H. reflexivity.
  - rewrite (IH C' j) by (try lia; assumption). apply andb_false_r.
Qed.

Lemma vec_eqb_nan_row (c : vec) (D : nat) :
  c <> [] -> (0 < D)%nat -> Np.vec_eqb c (repeat nan D) = false.
Proof.
  destruct c as [|x c]; [congruence|]. destruct D as [|D]; [lia|].
  intros _ _. unfold Np.vec_eqb. cbn. rewrite eqb_nan_r. reflexivity.
Qed.

Lemma all_finite_false_at (C : matrix) (j D : nat) :
  (j < length C)%nat -> (0 < D)%nat -> nth j C [] = repeat nan D ->
  Sk.all_finite C = false.
Proof.
  unfold Sk.all_finite. revert j.
  induction C as [|c C IH]; intros j Hj HD H; simpl in *; [lia|].
  destruct j as [|j].
  - subst c. destruct D as [|D]; [lia|]. reflexivity.
  - rewrite (IH j) by (try lia; assumption). apply andb_false_r.
Qed.

(** C2: no empty-cluster policy is applied.  When an iteration leaves cluster
    [j] without rows, the recomputed centroid [j] is NaN in every coordinate;
    the convergence test then fails; a loop with only this iteration left
    returns the labels, and a loop with more iterations left raises in the
    next distance computation.  Labels are only ever computed from centroids
    that are all finite. *)
Theorem empty_cluster_gives_nan_centroid
    (X : matrix) (k : nat) (C : matrix) (labels : list nat) (C' : matrix) (j : nat) :
  length C = k ->
  rectangular (ncols X) C ->
  lloyd_step X k C = Ok (labels, C') ->
  (j < k)%nat ->
  Np.select X labels j = [] ->
  Sk.all_finite C = true /\
  nth j C' [] = repeat nan (ncols X) /\
  Np.all_eq C C' = false /\
  lloyd_step X k C' = Raise NonFiniteInput /\
  (forall l it, perform_clustering_loop 1 X k C l it = Ok (labels, S it)) /\
  (forall n l it, perform_clustering_loop (S (S n)) X k C l it = Raise NonFiniteInput).
Proof.
  intros Hlen Hrect Hs Hj Hempty.
  pose proof Hs as Hs'.
  apply lloyd_step_ok in Hs' as (HD & _ & HC').
  apply cosine_distances_ok in HD as (_ & HfX & HnX & HcX & HfC & HnC & HcC).
  assert (Hnth : nth j C' [] = repeat nan (ncols X)).
  { rewrite HC', recompute_centroids_nth by exact Hj.
    rewrite Hempty. apply mean_axis0_empty. }
  assert (HlenC' : length C' = k)
    by (rewrite HC'; apply recompute_centroids_length).
  assert (Hne : Np.all_eq C C' = false).
  { apply (all_eq_false_at C C' j); try lia.
    rewrite Hnth. apply vec_eqb_nan_row; [|exact HcX].
    assert (Hin : In (nth j C []) C) by (apply nth_In; lia).
    unfold rectangular in Hrect. rewrite Forall_forall in Hrect.
    specialize (Hrect _ Hin). intros Heq. rewrite Heq in Hrect. simpl in Hrect. lia. }
  assert (Hraise : lloyd_step X k C' = Raise NonFiniteInput).
  { unfold lloyd_step, Sk.cosine_distances, Sk.cosine_similarity,
      Sk.check_pairwise_arrays.
    assert (HX : Sk.check_array X = Ok X) by (apply check_array_ok; auto).
    rewrite HX. cbn [rbind]. unfold Sk.check_array.
    rewrite (all_finite_false_at C' j (ncols X)) by (try lia; assumption).
    reflexivity. }
  repeat split; try assumption.
  - intros l it. rewrite perform_clustering_loop_step, Hs, Hne. reflexivity.
  - intros n l it. rewrite perform_clustering_loop_step, Hs, Hne.
    rewrite perform_clustering_loop_step, Hraise. reflexivity.
Qed.

(** C5: the assignment half of an iteration is optimal row by row.  For the
    centroids an iteration starts from, the cosine distance of every row to
    the centroid it is assigned to is at most its distance to any other
    centroid, so no other labelling brings any row closer to its centroid. *)
Theorem assignment_is_optimal_per_row
    (X : matrix) (k : nat) (C : matrix) (labels : list nat) (C' : matrix)
    (other : list nat) :
  lloyd_step X k C = Ok (labels, C') ->
  Forall (fun o => (o < length C)%nat) other ->
  forall i x l o,
    nth_error X i = Some x ->
    nth_error labels i = Some l ->
    nth_error other i = Some o ->
    Forall not_nan (distances_of_row C x) ->
    (nth l (distances_of_row C x) nan <=? nth o (distances_of_row C x) nan) = true.
Proof.
  intros Hs Hother i x l o Hx Hl Ho Hnan.
  destruct (lloyd_step_row _ _ _ _ _ Hs i x Hx) as (l' & Hl' & Harg).
  assert (l' = l) by congruence. subst l'.
  destruct (argmin_correct nan _ l Hnan Harg) as (_ & Hle & _).
  apply Hle. unfold distances_of_row. rewrite length_map.
  rewrite Forall_forall in Hother. apply Hother.
  eapply nth_error_In. exact Ho.
Qed.

(** *** All-zero rows *)

Lemma mul_zero_l (y : float) :
  zero * y = zero \/ zero * y = neg_zero \/ zero * y = nan.
Proof.
  assert (H : Prim2SF (zero * y) = SF64mul (S754_zero false) (Prim2SF y))
    by apply mul_spec.
  rewrite <- (SF2Prim_Prim2SF (zero * y)), H.
  destruct (Prim2SF y) as [[|]|[|]| |[|] m e]; cbn [SF64mul SFmul xorb];
    first [ left; reflexivity | right; left; reflexivity | right; right; reflexivity ].
Qed.

Lemma add_zero_product (acc y : float) :
  zero_or_nan acc -> zero_or_nan (acc + zero * y).
Proof.
  intros [-> | ->]; destruct (mul_zero_l y) as [-> | [-> | ->]];
    first [ left; reflexivity | right; reflexivity ].
Qed.

Lemma dot_zero_row_fold (D : nat) :
  forall (ys : vec) (acc : float),
    zero_or_nan acc ->
    zero_or_nan (fold_left (fun a p => a + fst p * snd p) (combine (repeat zero D) ys) acc).
Proof.
  induction D as [|D IH]; intros ys acc Hacc; [exact Hacc|].
  destruct ys as [|y ys]; [exact Hacc|].
  cbn [repeat combine fold_left fst snd]. apply IH. now apply add_zero_product.
Qed.

Lemma dot_zero_row (D : nat) (ys : vec) : zero_or_nan (Sk.dot (repeat zero D) ys).
Proof. apply dot_zero_row_fold. now left. Qed.

Lemma dot_zeros_fold (D : nat) :
  fold_left (fun a p => a + fst p * snd p) (combine (repeat zero D) (repeat zero D)) zero
  = zero.
Proof.
  induction D as [|D IH]; [reflexivity|].
  cbn [repeat combine fold_left fst snd].
  replace (zero + zero * zero) with zero by reflexivity. exact IH.
Qed.

(** [normalize] leaves an all-zero row as it is: its norm 0 is replaced by 1. *)
Lemma normalize_zero_row (D : nat) :
  Sk.normalize_row (repeat zero D) = repeat zero D.
Proof.
  unfold Sk.normalize_row, Sk.row_norm, Sk.dot. rewrite dot_zeros_fold.
  replace (Sk.handle_zeros_in_scale (sqrt zero)) with one by reflexivity.
  induction D as [|D IH]; [reflexivity|].
  cbn [repeat map]. rewrite IH. reflexivity.
Qed.

Lemma zero_row_distances (C : matrix) (D : nat) :
  Forall (fun d => d = one \/ d = nan) (distances_of_row C (repeat zero D)).
Proof.
  unfold distances_of_row. apply Forall_forall. intros d Hd.
  apply in_map_iff in Hd as (c & <- & _).
  rewrite normalize_zero_row.
  destruct (dot_zero_row D (Sk.normalize_row c)) as [-> | ->];
    [left | right]; reflexivity.
Qed.

Lemma argmin_scan_ones (rest : vec) (i : nat) :
  Forall (fun d => d = one) rest -> Np.argmin_scan one 0 i rest = 0%nat.
Proof.
  revert i. induction rest as [|x rest IH]; intros i H; [reflexivity|].
  inversion H as [|? ? Hx Hrest]; subst.
  cbn [Np.argmin_scan]. replace (one <=? one) with true by reflexivity.
  now apply IH.
Qed.

Lemma argmin_ones (row : vec) (l : nat) :
  Forall (fun d => d = one) row -> Np.argmin row = Ok l -> l = 0%nat.
Proof.
  destruct row as [|x rest]; [discriminate|].
  intros H Hl. inversion H as [|? ? Hx Hrest]; subst.
  cbn [Np.argmin] in Hl. replace (Np.isnan one) with false in Hl by reflexivity.
  rewrite argmin_scan_ones in Hl by assumption. now injection Hl.
Qed.

(** C3: an all-zero row is not rejected.  For a finite matrix that contains an
    all-zero row, and finite centroids of the same width, the iteration runs
    through: distances, labels and new centroids are computed.  The norm 0 of
    the row is replaced by 1, every distance of the row is 1 (or NaN), and
    when they are all 1 the row gets label 0. *)
Theorem zero_row_is_assigned
    (X C : matrix) (k i : nat) :
  Sk.all_finite X = true ->
  (0 < ncols X)%nat ->
  nth_error X i = Some (repeat zero (ncols X)) ->
  Sk.all_finite C = true ->
  C <> [] ->
  ncols C = ncols X ->
  Sk.normalize_row (repeat zero (ncols X)) = repeat zero (ncols X) /\
  exists labels l,
    lloyd_step X k C = Ok (labels, recompute_centroids X labels k) /\
    nth_error labels i = Some l /\
    Forall (fun d => d = one \/ d = nan) (distances_of_row C (repeat zero (ncols X))) /\
    (Forall (fun d => d = one) (distances_of_row C (repeat zero (ncols X))) -> l = 0%nat).
Proof.
  intros HfX HcX Hrow HfC HnC HcC.
  split; [apply normalize_zero_row|].
  assert (HnX : X <> []) by (intros ->; destruct i; discriminate).
  assert (HD : Sk.cosine_distances X C = Ok (distance_table X C))
    by (apply cosine_distances_ok; auto 10).
  destruct (argmin_axis1_total (distance_table X C) (length C)) as [labels Hl].
  { destruct C; [congruence | simpl; lia]. }
  { apply distance_table_rows. }
  assert (Hs : lloyd_step X k C = Ok (labels, recompute_centroids X labels k))
    by (apply lloyd_step_ok; auto).
  destruct (lloyd_step_row _ _ _ _ _ Hs i _ Hrow) as (l & Hli & Harg).
  exists labels, l. repeat split; try assumption.
  - apply zero_row_distances.
  - intros Hones. exact (argmin_ones _ _ Hones Harg).
Qed.

End Refinement.

(** ** Cluster counts *)

Section ClusterCount.
Import NpFacts SkFacts LoopFacts.

Variable rng : Type.
Variable seed_state : Z -> rng.
Variable draw : rng -> nat -> nat -> list nat * rng.

Lemma perform_clustering_loop_raise (n : nat) (X : matrix) (k : nat) :
  forall C l it e,
    perform_clustering_loop n X k C l it = Raise e ->
    e = NonFiniteInput \/ e = EmptyArray \/ e = IncompatibleDimension \/ e = EmptySequence.
Proof.
  induction n as [|n IH]; intros C l it e; [discriminate|].
  rewrite perform_clustering_loop_step.
  destruct (lloyd_step X k C) as [[l' C']|e'] eqn:Hs.
  - destruct (Np.all_eq C C'); [discriminate | apply IH].
  - intros H. injection H as <-. exact (lloyd_step_raise _ _ _ _ Hs).
Qed.

(** C9: the cluster count is only checked by the library calls.  A count
    above the number of rows is rejected by the sampler, a negative count as
    well, and a count of 0 by the distance routine; in each case no labelling
    is returned.  Every count from 1 to the number of rows, 1 included, passes
    the sampler: if the call fails at all, it fails in the distance
    computation. *)
Theorem cluster_count_is_checked_by_the_sampler (X : matrix) (k : Z) (g : rng) :
  draw_ok draw ->
  ((Z.of_nat (length X) < k)%Z \/ (k < 0)%Z ->
   exists e,
     perform_clustering seed_state draw X k g = (Raise e, seed_state 42%Z) /\
     (e = EmptyPopulation \/ e = SampleLargerThanPopulation \/ e = NegativeDimensions)) /\
  (k = 0%Z ->
   exists e, fst (perform_clustering seed_state draw X k g) = Raise e /\
             (e = EmptyArray \/ e = NonFiniteInput)) /\
  ((1 <= k <= Z.of_nat (length X))%Z ->
   forall e, fst (perform_clustering seed_state draw X k g) = Raise e ->
     e = NonFiniteInput \/ e = EmptyArray \/ e = IncompatibleDimension \/ e = EmptySequence).
Proof.
  intros Hdraw.
  rewrite perform_clustering_eq, perform_clustering_run_eq.
  repeat split.
  - intros Hk.
    destruct (choice_error (length X) k) as [e|] eqn:E.
    + exists e. split; [reflexivity | exact (choice_error_some _ _ _ E)].
    + apply choice_error_none in E. lia.
  - intros ->.
    rewrite (proj2 (choice_error_none (length X) 0%Z)) by lia.
    cbn [Z.to_nat].
    assert (Hidx : seeded_indices seed_state draw (length X) 0 = []).
    { apply length_zero_iff_nil. unfold seeded_indices. apply Hdraw. lia. }
    rewrite Hidx. cbn [Np.take map].
    rewrite perform_clustering_loop_step.
    unfold lloyd_step, Sk.cosine_distances, Sk.cosine_similarity,
      Sk.check_pairwise_arrays.
    destruct (Sk.check_array X) as [X'|e] eqn:HX; cbn [rbind fst].
    + exists EmptyArray. split; [reflexivity | now left].
    + exists e. split; [reflexivity|].
      destruct (check_array_raise _ _ HX); auto.
  - intros Hk e.
    rewrite (proj2 (choice_error_none (length X) k)) by lia.
    destruct (perform_clustering_loop 100 X (Z.to_nat k)
                (Np.take X (seeded_indices seed_state draw (length X) (Z.to_nat k))) [] 0)
      as [r|e'] eqn:Hloop; cbn [fst]; [discriminate|].
    intros H. injection H as <-.
    exact (perform_clustering_loop_raise _ _ _ _ _ _ _ Hloop).
Qed.

End ClusterCount.


(** ** Runs on concrete matrices *)

Section Runs.
Import NpFacts SkFacts LoopFacts.
Local Open Scope float_scope.

Lemma mod_shift_injective (g N i j : nat) :
  (i < N)%nat -> (j < N)%nat -> ((g + i) mod N = (g + j) mod N)%nat -> i = j.
Proof.
  intros Hi Hj H.
  assert (HN : N <> 0%nat) by lia.
  pose proof (Nat.div_mod (g + i) N HN) as Ei.
  pose proof (Nat.div_mod (g + j) N HN) as Ej.
  pose proof (Nat.mod_upper_bound (g + i) N HN) as Bi.
  rewrite H in Ei.
  set (qi := ((g + i) / N)%nat) in *. set (qj := ((g + j) / N)%nat) in *.
  set (r := ((g + j) mod N)%nat) in *.
  destruct (Nat.lt_trichotomy qi qj) as [L|[E|L]]; nia.
Qed.

(** The concrete generator samples without replacement. *)
Lemma demo_draw_ok : draw_ok demo_draw.
Proof.
  intros g N k Hk. unfold demo_draw. cbn [fst].
  split; [now rewrite length_map, length_seq|]. split.
  - apply NoDup_map_NoDup_ForallPairs; [|apply seq_NoDup].
    intros i j Hi Hj H. apply in_seq in Hi, Hj.
    apply (mod_shift_injective g N); lia.
  - apply Forall_forall. intros x Hx.
    apply in_map_iff in Hx as (i & <- & Hi). apply in_seq in Hi.
    apply Nat.mod_upper_bound. lia.
Qed.

(** C1, on the eleven-row matrix: 2 is returned, the first maximum of the
    nine scores. *)
Lemma selection_returns_first_maximum_run :
  exists best,
    In best X11_candidates /\
    demo_find_optimal_clusters X11 0%nat = (Ok (cand_k best), 43%nat) /\
    map cand_k X11_candidates = K /\
    (2 <= cand_k best <= 10)%Z /\
    forall c, In c X11_candidates ->
      Silhouette.score X11 (cand_labels c) = Ok (cand_score c) /\
      (cand_score c <=? cand_score best) = true /\
      ((cand_score c =? cand_score best) = true -> (cand_k best <= cand_k c)%Z).
Proof.
  apply (selection_returns_first_maximum demo_rng demo_seed demo_draw Silhouette.score
           X11 0%nat 43%nat X11_candidates).
  - vm_compute. reflexivity.
  - repeat constructor.
Defined.

(** C10, on the eleven-row matrix. *)
Lemma selected_labelling_is_the_scored_one_run :
  demo_find_optimal_clusters X11 0%nat = (Ok 2%Z, 43%nat) /\
  exists cands best,
    demo_find_optimal_candidates X11 0%nat = (Ok cands, 43%nat) /\
    In best cands /\
    cand_k best = 2%Z /\
    Silhouette.score X11 (cand_labels best) = Ok (cand_score best) /\
    forall g2, fst (demo_perform_clustering X11 2%Z g2) = Ok (cand_labels best).
Proof.
  assert (H : demo_find_optimal_clusters X11 0%nat = (Ok 2%Z, 43%nat))
    by (vm_compute; reflexivity).
  split; [exact H|].
  exact (selected_labelling_is_the_scored_one demo_rng demo_seed demo_draw Silhouette.score
           X11 0%nat 43%nat 2%Z H).
Defined.

(** C6, on the four-row matrix with two clusters. *)
Lemma labelling_shape_run :
  demo_perform_clustering X4 2%Z 0%nat = (Ok [1; 0; 1; 1]%nat, 43%nat) /\
  (length [1; 0; 1; 1]%nat = length X4 /\
   Forall (fun l => (0 <= Z.of_nat l < 2)%Z) [1; 0; 1; 1]%nat) /\
  (forall g1 g2 cands,
     find_optimal_candidates demo_seed demo_draw Silhouette.score X4 g1 = (Ok cands, g2) ->
     Forall (fun c =>
               length (cand_labels c) = length X4 /\
               Forall (fun l => (0 <= Z.of_nat l < cand_k c)%Z) (cand_labels c))
            cands).
Proof.
  assert (H : demo_perform_clustering X4 2%Z 0%nat = (Ok [1; 0; 1; 1]%nat, 43%nat))
    by (vm_compute; reflexivity).
  split; [exact H|].
  exact (labelling_shape demo_rng demo_seed demo_draw Silhouette.score X4 2%Z 0%nat 43%nat
           [1; 0; 1; 1]%nat demo_draw_ok H).
Defined.

(** C7: on two identical rows with two clusters the loop is left in its
    second iteration, far below the cap, although the centroids recomputed by
    the first iteration did not compare equal to the initial ones: the second
    distance computation raises.  This is so for both possible draws. *)
Lemma loop_is_aborted_before_convergence :
  Forall (fun idx =>
            iteration_test X2 2 (Np.take X2 idx) 0 false /\
            raises_during 100 X2 2 (Np.take X2 idx) NonFiniteInput 2 /\
            perform_clustering_loop 100 X2 2 (Np.take X2 idx) [] 0
            = Raise NonFiniteInput)
         [[0; 1]; [1; 0]]%nat.
Proof.
  assert (H : forall idx, In idx [[0; 1]; [1; 0]]%nat ->
              lloyd_step X2 2 (Np.take X2 idx) = Ok ([0; 0]%nat, [[1; 0]; [nan; nan]]))
    by (intros idx [<-|[<-|[]]]; vm_compute; reflexivity).
  apply Forall_forall. intros idx Hidx. specialize (H idx Hidx).
  assert (Ht : iteration_test X2 2 (Np.take X2 idx) 0 false).
  { exists (Np.take X2 idx), [0; 0]%nat, [[1; 0]; [nan; nan]].
    repeat split; [exact H|].
    destruct Hidx as [<-|[<-|[]]]; vm_compute; reflexivity. }
  split; [exact Ht|]. split.
  - split; [lia|]. split.
    + intros i Hi. assert (i = 0%nat) by lia. subst i. exact Ht.
    + exists [[1; 0]; [nan; nan]]. split.
      * change (2 - 1)%nat with 1%nat. rewrite centroids_after_shift, H. reflexivity.
      * vm_compute. reflexivity.
  - destruct Hidx as [<-|[<-|[]]]; vm_compute; reflexivity.
Qed.

(** C7, on the four-row matrix: three iterations, the third one converged. *)
Lemma loop_stops_at_first_fixpoint_or_cap_run :
  stops_after 100 X4 2 (Np.take X4 [2; 3]%nat) [1; 0; 1; 1]%nat 3.
Proof.
  apply (proj1 (loop_stops_at_first_fixpoint_or_cap X4 2 (Np.take X4 [2; 3]%nat)
                  [1; 0; 1; 1]%nat 3)).
  vm_compute. reflexivity.
Defined.


(** C2: two identical rows, two clusters.  Both rows go to cluster 0, cluster 1
    is left empty, its centroid becomes NaN and the call raises. *)
Lemma empty_cluster_breaks_the_run :
  seeded_indices demo_seed demo_draw 2 2 = [0; 1]%nat /\
  lloyd_step X2 2 (Np.take X2 [0; 1]%nat) = Ok ([0; 0]%nat, [[1; 0]; [nan; nan]]) /\
  lloyd_step X2 2 (Np.take X2 [1; 0]%nat) = Ok ([0; 0]%nat, [[1; 0]; [nan; nan]]) /\
  demo_perform_clustering X2 2%Z 0%nat = (Raise NonFiniteInput, 43%nat).
Proof. repeat split; vm_compute; reflexivity. Qed.

(** C2, what the loop does on the same run. *)
Lemma empty_cluster_gives_nan_centroid_run :
  Sk.all_finite (Np.take X2 [0; 1]%nat) = true /\
  nth 1 [[1; 0]; [nan; nan]] [] = repeat nan (ncols X2) /\
  Np.all_eq (Np.take X2 [0; 1]%nat) [[1; 0]; [nan; nan]] = false /\
  lloyd_step X2 2 [[1; 0]; [nan; nan]] = Raise NonFiniteInput /\
  (forall l it,
     perform_clustering_loop 1 X2 2 (Np.take X2 [0; 1]%nat) l it = Ok ([0; 0]%nat, S it)) /\
  (forall n l it,
     perform_clustering_loop (S (S n)) X2 2 (Np.take X2 [0; 1]%nat) l it
     = Raise NonFiniteInput).
Proof.
  apply (empty_cluster_gives_nan_centroid X2 2 (Np.take X2 [0; 1]%nat)
           [0; 0]%nat [[1; 0]; [nan; nan]] 1).
  - reflexivity.
  - repeat constructor.
  - vm_compute. reflexivity.
  - lia.
  - reflexivity.
Defined.

(** C3: a matrix whose last row is all zero is clustered, nothing is raised;
    and whichever two rows are drawn as initial centroids, the first
    iteration computes distances, labels and centroids. *)
Lemma zero_row_is_not_rejected :
  seeded_indices demo_seed demo_draw 3 2 = [0; 1]%nat /\
  demo_perform_clustering Xz 2%Z 0%nat = (Ok [0; 1; 0]%nat, 43%nat) /\
  Forall (fun idx => exists r, lloyd_step Xz 2 (Np.take Xz idx) = Ok r)
         [[0; 1]; [1; 0]; [0; 2]; [2; 0]; [1; 2]; [2; 1]]%nat.
Proof.
  split; [vm_compute; reflexivity|]. split; [vm_compute; reflexivity|].
  repeat constructor; eexists; vm_compute; reflexivity.
Qed.

(** C3, the first iteration of that run. *)
Lemma zero_row_is_assigned_run :
  Sk.normalize_row (repeat zero (ncols Xz)) = repeat zero (ncols Xz) /\
  exists labels l,
    lloyd_step Xz 2 (Np.take Xz [0; 1]%nat)
    = Ok (labels, recompute_centroids Xz labels 2) /\
    nth_error labels 2 = Some l /\
    Forall (fun d => d = one \/ d = nan)
           (distances_of_row (Np.take Xz [0; 1]%nat) (repeat zero (ncols Xz))) /\
    (Forall (fun d => d = one)
            (distances_of_row (Np.take Xz [0; 1]%nat) (repeat zero (ncols Xz))) ->
     l = 0%nat).
Proof.
  apply (zero_row_is_assigned Xz (Np.take Xz [0; 1]%nat) 2 2).
  - reflexivity.
  - simpl. lia.
  - reflexivity.
  - reflexivity.
  - discriminate.
  - reflexivity.
Defined.

(** C5: on the six-row matrix with two clusters, whichever two rows are drawn
    as initial centroids, the sum of squared distances goes up between two
    consecutive iterations of the run.  On the four-row matrix, started from
    rows 2 and 3, it goes up from the second to the third iteration, whether
    it is taken against the centroids an iteration starts from or against the
    centroids it recomputes. *)
Lemma objective_increases :
  forallb (fun idx => objective_increases_in_run X6 2 (Np.take X6 idx))
          (ordered_pairs 6) = true /\
  perform_clustering_run demo_seed demo_draw X4 2%Z 0%nat
  = (Ok ([1; 0; 1; 1]%nat, 3%nat), 43%nat) /\
  seeded_indices demo_seed demo_draw 4 2 = [2; 3]%nat /\
  (exists a b,
     objective_at 1 X4 2 (Np.take X4 [2; 3]%nat) = Ok a /\
     objective_at 2 X4 2 (Np.take X4 [2; 3]%nat) = Ok b /\
     (a <? b) = true) /\
  (exists a b,
     objective_after_update 0 X4 2 (Np.take X4 [2; 3]%nat) = Ok a /\
     objective_after_update 1 X4 2 (Np.take X4 [2; 3]%nat) = Ok b /\
     (a <? b) = true).
Proof.
  split; [vm_compute; reflexivity|].
  split; [vm_compute; reflexivity|]. split; [vm_compute; reflexivity|].
  split; eexists; eexists; (split; [vm_compute; reflexivity|]);
    (split; [vm_compute; reflexivity|]); vm_compute; reflexivity.
Qed.

(** C5, the assignment step of the first iteration over the four-row
    matrix: row 0 is assigned to centroid 1, and the labelling that sends
    every row to centroid 0 does not bring it closer. *)
Lemma assignment_is_optimal_per_row_run :
  lloyd_step X4 2 (Np.take X4 [2; 3]%nat)
  = Ok ([1; 0; 0; 1]%nat, [[2; 0.5]; [2.5; 2]]) /\
  (nth 1 (distances_of_row (Np.take X4 [2; 3]%nat) [0; 1]) nan
   <=? nth 0 (distances_of_row (Np.take X4 [2; 3]%nat) [0; 1]) nan) = true.
Proof.
  assert (H : lloyd_step X4 2 (Np.take X4 [2; 3]%nat)
              = Ok ([1; 0; 0; 1]%nat, [[2; 0.5]; [2.5; 2]]))
    by (vm_compute; reflexivity).
  split; [exact H|].
  apply (assignment_is_optimal_per_row X4 2 (Np.take X4 [2; 3]%nat)
           [1; 0; 0; 1]%nat [[2; 0.5]; [2.5; 2]] [0; 0; 0; 0]%nat H
           ltac:(repeat constructor) 0%nat [0; 1] 1%nat 0%nat).
  - reflexivity.
  - reflexivity.
  - reflexivity.
  - repeat constructor.
Defined.

(** C9: a cluster count of 1 is accepted and every row gets label 0,
    whichever row is drawn as the initial centroid. *)
Lemma single_cluster_is_accepted :
  demo_perform_clustering X3 1%Z 0%nat = (Ok [0; 0; 0]%nat, 43%nat) /\
  Forall (fun idx =>
            perform_clustering_loop 100 X3 1 (Np.take X3 idx) [] 0
            = Ok ([0; 0; 0]%nat, 2%nat))
         [[0]; [1]; [2]]%nat.
Proof.
  split; [vm_compute; reflexivity|]. repeat constructor; vm_compute; reflexivity.
Qed.

(** C9, counts outside 1..3 on the three-row matrix. *)
Lemma cluster_count_is_checked_by_the_sampler_run :
  (exists e,
     demo_perform_clustering X3 4%Z 0%nat = (Raise e, 42%nat) /\
     (e = EmptyPopulation \/ e = SampleLargerThanPopulation \/ e = NegativeDimensions)) /\
  (exists e, fst (demo_perform_clustering X3 0%Z 0%nat) = Raise e /\
             (e = EmptyArray \/ e = NonFiniteInput)).
Proof.
  destruct (cluster_count_is_checked_by_the_sampler demo_rng demo_seed demo_draw X3 4%Z
              0%nat demo_draw_ok) as (H1 & _).
  destruct (cluster_count_is_checked_by_the_sampler demo_rng demo_seed demo_draw X3 0%Z
              0%nat demo_draw_ok) as (_ & H2 & _).
  split; [apply H1; left; simpl; lia | apply H2; reflexivity].
Defined.

End Runs.


(** ** Strings and counters *)

Module PyFacts.
Import Py.

Lemma split_from_app_space (a b : str) (sp : char) :
  isspace sp = true ->
  forall w, split_from w (a ++ sp :: b) = split_from w a ++ split b.
Proof.
  intros Hsp. induction a as [|c a IH]; intros w.
  - cbn [app split_from]. rewrite Hsp. destruct w; reflexivity.
  - cbn [app split_from]. destruct (isspace c).
    + destruct w; rewrite IH; reflexivity.
    + apply IH.
Qed.

Lemma split_from_clean (u : str) :
  Forall (fun c => isspace c = false) u ->
  forall w, w ++ u <> [] -> split_from w u = [w ++ u].
Proof.
  induction 1 as [|c u Hc _ IH]; intros w Hne.
  - rewrite app_nil_r in *. destruct w; [congruence | reflexivity].
  - cbn [split_from]. rewrite Hc. rewrite IH.
    + now rewrite <- app_assoc.
    + rewrite <- app_assoc. exact Hne.
Qed.

Lemma split_clean_word (w : str) : clean_word w -> split w = [w].
Proof.
  intros [Hne Hw]. unfold split. now rewrite split_from_clean.
Qed.

Lemma isspace_space : isspace space = true.
Proof. reflexivity. Qed.

(** Splitting a text joined with spaces gives the words of the parts. *)
Lemma split_join (texts : list str) :
  split (join [space] texts) = concat (map split texts).
Proof.
  induction texts as [|t texts IH]; [reflexivity|].
  destruct texts as [|t' texts].
  - cbn. now rewrite app_nil_r.
  - change (join [space] (t :: t' :: texts))
      with (t ++ space :: join [space] (t' :: texts)).
    unfold split at 1. rewrite split_from_app_space by apply isspace_space.
    rewrite IH. reflexivity.
Qed.

(** Joining words with spaces and splitting again gives the words back. *)
Lemma split_join_words (words : list str) :
  Forall clean_word words -> split (join [space] words) = words.
Proof.
  intros H. rewrite split_join.
  induction H as [|w words Hw _ IH]; [reflexivity|].
  cbn [map concat]. rewrite split_clean_word by assumption. now rewrite IH.
Qed.

(** Every word of a split is non-empty and free of white space. *)
Lemma split_from_words (s : str) :
  forall w, Forall (fun c => isspace c = false) w ->
            Forall clean_word (split_from w s).
Proof.
  induction s as [|c s IH]; intros w Hw; cbn [split_from].
  - destruct w; constructor; [|constructor]. split; [discriminate | assumption].
  - destruct (isspace c) eqn:Hc.
    + destruct w.
      * apply IH. constructor.
      * constructor; [split; [discriminate | assumption] | apply IH; constructor].
    + apply IH. apply Forall_app. split; [assumption | repeat constructor; assumption].
Qed.

Lemma split_words (s : str) : Forall clean_word (split s).
Proof. apply split_from_words. constructor. Qed.

Lemma str_eqb_eq (a b : str) : str_eqb a b = true <-> a = b.
Proof.
  unfold str_eqb. destruct (list_eq_dec N.eq_dec a b); split; congruence.
Qed.

Lemma str_eqb_refl (a : str) : str_eqb a a = true.
Proof. now apply str_eqb_eq. Qed.

Lemma str_eqb_neq (a b : str) : str_eqb a b = false <-> a <> b.
Proof.
  unfold str_eqb. destruct (list_eq_dec N.eq_dec a b); split; congruence.
Qed.

Lemma mem_In (w : str) (s : list str) : mem w s = true <-> In w s.
Proof.
  unfold mem. rewrite existsb_exists. split.
  - intros (x & Hx & E). apply str_eqb_eq in E. now subst.
  - intros H. exists w. split; [assumption | apply str_eqb_refl].
Qed.

(** *** Counters *)

Lemma counter_get_add (c : counter) (w u : str) :
  counter_get (counter_add w c) u =
  if str_eqb w u then S (counter_get c u) else counter_get c u.
Proof.
  induction c as [|[v n] c IH]; cbn [counter_add counter_get].
  - destruct (str_eqb w u); reflexivity.
  - destruct (str_eqb v w) eqn:Evw; cbn [counter_get].
    + apply str_eqb_eq in Evw. subst v. destruct (str_eqb w u); reflexivity.
    + destruct (str_eqb v u) eqn:Evu; [|exact IH].
      apply str_eqb_eq in Evu. apply str_eqb_neq in Evw.
      now rewrite (proj2 (str_eqb_neq w u)) by congruence.
Qed.

Lemma keys_add (c : counter) (w : str) :
  keys (counter_add w c) = if mem w (keys c) then keys c else keys c ++ [w].
Proof.
  induction c as [|[v n] c IH]; [reflexivity|].
  cbn [counter_add keys map fst mem existsb]. fold (keys c). fold (mem w (keys c)).
  destruct (str_eqb v w) eqn:Evw.
  - apply str_eqb_eq in Evw. subst v. now rewrite str_eqb_refl.
  - rewrite (proj2 (str_eqb_neq w v)) by (apply str_eqb_neq in Evw; congruence).
    cbn [orb map fst]. fold (keys (counter_add w c)). rewrite IH.
    destruct (mem w (keys c)); reflexivity.
Qed.

Lemma keys_add_NoDup (c : counter) (w : str) :
  NoDup (keys c) -> NoDup (keys (counter_add w c)).
Proof.
  intros H. rewrite keys_add. destruct (mem w (keys c)) eqn:E; [assumption|].
  apply NoDup_app; [assumption | repeat constructor; intros [] | ].
  intros x Hx [<-|[]]. apply mem_In in Hx. congruence.
Qed.

Lemma counter_fold_get (words : list str) :
  forall c u,
    counter_get (fold_left (fun c w => counter_add w c) words c) u =
    counter_get c u + occurrences u words.
Proof.
  unfold occurrences.
  induction words as [|w words IH]; intros c u; cbn [fold_left count_occ]; [lia|].
  rewrite IH, counter_get_add.
  destruct (list_eq_dec N.eq_dec w u) as [->|Hne].
  - rewrite str_eqb_refl. lia.
  - now rewrite (proj2 (str_eqb_neq w u)).
Qed.

Lemma counter_fold_NoDup (words : list str) :
  forall c, NoDup (keys c) ->
            NoDup (keys (fold_left (fun c w => counter_add w c) words c)).
Proof.
  induction words as [|w words IH]; intros c H; [exact H|].
  cbn [fold_left]. apply IH. now apply keys_add_NoDup.
Qed.

Lemma counter_get_In (c : counter) (w : str) (n : nat) :
  NoDup (keys c) -> In (w, n) c -> counter_get c w = n.
Proof.
  induction c as [|[v m] c IH]; intros Hnd Hin; [destruct Hin|].
  cbn [keys map fst] in Hnd. inversion Hnd as [|? ? Hv Hnd']; subst.
  cbn [counter_get]. destruct Hin as [E|Hin].
  - injection E as -> ->. now rewrite str_eqb_refl.
  - destruct (str_eqb v w) eqn:E.
    + apply str_eqb_eq in E. subst v. exfalso. apply Hv.
      change w with (fst (w, n)). now apply in_map.
    + now apply IH.
Qed.

(** [Counter(words)]: distinct keys, and every item carries the number of
    occurrences of its key, which is not 0. *)
Lemma Counter_items (words : list str) :
  NoDup (keys (Counter words)) /\
  forall w n, In (w, n) (Counter words) -> n = occurrences w words /\ 1 <= n.
Proof.
  assert (Hnd : NoDup (keys (Counter words)))
    by (apply counter_fold_NoDup; constructor).
  split; [exact Hnd|]. intros w n Hin.
  pose proof (counter_get_In _ _ _ Hnd Hin) as Hget.
  unfold Counter in Hget. rewrite counter_fold_get in Hget. cbn in Hget.
  split; [congruence|].
  revert Hin. unfold Counter.
  assert (Hpos : forall (ws : list str) (c : counter),
            Forall (fun p => 1 <= snd p) c ->
            Forall (fun p => 1 <= snd p) (fold_left (fun c w => counter_add w c) ws c)).
  { induction ws as [|x ws IH]; intros c Hc; [exact Hc|].
    cbn [fold_left]. apply IH. clear IH.
    induction c as [|[v m] c IHc]; cbn [counter_add].
    - repeat constructor.
    - inversion Hc as [|? ? Hm Hc']; subst. destruct (str_eqb v x).
      + constructor; [cbn; lia | assumption].
      + constructor; [assumption | now apply IHc]. }
  intros Hin. specialize (Hpos words [] (Forall_nil _)).
  rewrite Forall_forall in Hpos. exact (Hpos _ Hin).
Qed.

(** *** Sorting by count *)

Lemma insert_by_count_perm (x : str * nat) (l : counter) :
  Permutation (insert_by_count x l) (x :: l).
Proof.
  induction l as [|y l IH]; cbn [insert_by_count]; [reflexivity|].
  destruct (snd y <=? snd x); [reflexivity|].
  rewrite IH. apply perm_swap.
Qed.

Lemma sorted_by_count_perm (c : counter) : Permutation (sorted_by_count c) c.
Proof.
  induction c as [|x c IH]; [reflexivity|].
  cbn [sorted_by_count fold_right]. rewrite insert_by_count_perm.
  now apply perm_skip.
Qed.

Lemma insert_by_count_sorted (x : str * nat) (l : counter) :
  StronglySorted count_ge l -> StronglySorted count_ge (insert_by_count x l).
Proof.
  induction 1 as [|y l Hl IH Hy]; cbn [insert_by_count].
  - repeat constructor.
  - destruct (Nat.leb_spec (snd y) (snd x)) as [Hle|Hlt].
    + constructor; [constructor; assumption|].
      constructor; [exact Hle|].
      eapply Forall_impl; [|exact Hy]. unfold count_ge. intros z Hz. lia.
    + constructor; [exact IH|].
      assert (Hxl : Forall (count_ge y) (x :: l))
        by (constructor; [unfold count_ge; lia | exact Hy]).
      rewrite Forall_forall in Hxl. apply Forall_forall. intros z Hz. apply Hxl.
      exact (Permutation_in _ (insert_by_count_perm x l) Hz).
Qed.

Lemma sorted_by_count_sorted (c : counter) :
  StronglySorted count_ge (sorted_by_count c).
Proof.
  induction c as [|x c IH]; [constructor|].
  cbn [sorted_by_count fold_right]. now apply insert_by_count_sorted.
Qed.

Lemma StronglySorted_app_le (l1 l2 : counter) :
  StronglySorted count_ge (l1 ++ l2) ->
  forall x y, In x l1 -> In y l2 -> snd y <= snd x.
Proof.
  induction l1 as [|a l1 IH]; intros H x y Hx Hy; [destruct Hx|].
  cbn [app] in H. inversion H as [|? ? Hs Ha]; subst.
  destruct Hx as [<-|Hx].
  - rewrite Forall_forall in Ha. apply (Ha y). apply in_or_app. now right.
  - now apply (IH Hs x y).
Qed.

(** [c.most_common(n)]: at most [n] of the items of [c], by non-increasing
    count, and no item left out has a larger count than an item listed. *)
Lemma most_common_spec (n : nat) (c : counter) :
  length (most_common n c) <= n /\
  length (most_common n c) = Nat.min n (length c) /\
  StronglySorted count_ge (most_common n c) /\
  (forall x, In x (most_common n c) -> In x c) /\
  (NoDup (keys c) -> NoDup (keys (most_common n c))) /\
  (forall x y, In x (most_common n c) -> In y c -> ~ In y (most_common n c) ->
               snd y <= snd x).
Proof.
  unfold most_common.
  pose proof (sorted_by_count_perm c) as Hperm.
  pose proof (sorted_by_count_sorted c) as Hsorted.
  set (s := sorted_by_count c) in *.
  assert (Hsplit : s = firstn n s ++ skipn n s) by (symmetry; apply firstn_skipn).
  split; [apply firstn_le_length|].
  split; [rewrite length_firstn, (Permutation_length Hperm); reflexivity|].
  split.
  { rewrite Hsplit in Hsorted. clear Hsplit.
    induction (firstn n s) as [|a l IH]; [constructor|].
    cbn [app] in Hsorted. inversion Hsorted as [|? ? Hs Ha]; subst.
    constructor; [now apply IH|]. apply Forall_app in Ha. tauto. }
  split.
  { intros x Hx. apply (Permutation_in _ Hperm).
    rewrite Hsplit. apply in_or_app. now left. }
  split.
  { intros Hnd. unfold keys in *.
    assert (Hs : NoDup (map fst s))
      by (apply (Permutation_NoDup (Permutation_map fst (Permutation_sym Hperm)));
          exact Hnd).
    rewrite Hsplit, map_app in Hs. now apply NoDup_app_remove_r in Hs. }
  intros x y Hx Hy Hny.
  apply (StronglySorted_app_le (firstn n s) (skipn n s));
    [rewrite <- Hsplit; exact Hsorted | exact Hx |].
  apply (Permutation_in _ (Permutation_sym Hperm)) in Hy.
  rewrite Hsplit in Hy. apply in_app_or in Hy. tauto.
Qed.

End PyFacts.


(** ** Date filter and text functions *)

Section FrameFacts.
Import Py PyFacts.

Lemma filter_by_date_In (df : list article) (start_date end_date : Z) (a : article) :
  In a (filter_by_date df start_date end_date) <->
  In a df /\ in_range start_date end_date a.
Proof.
  unfold filter_by_date, in_range. rewrite filter_In.
  destruct (date a) as [d|].
  - rewrite andb_true_iff, !Z.leb_le. split.
    + intros (H & H1 & H2). split; [assumption|]. exists d. auto.
    + intros (H & d' & E & H1 & H2). injection E as <-. auto.
  - split; [intros [_ H]; discriminate | intros (_ & d & E & _); discriminate].
Qed.

(** X1: [filter_by_date] keeps exactly the rows whose date lies in the
    closed range, both ends included, each once and in the order of the
    frame; a row without a date is dropped.  The positions kept are given as
    an increasing list of row numbers. *)
Theorem filter_by_date_keeps_the_range (df : list article) (start_date end_date : Z) :
  exists idx : list nat,
    StronglySorted lt idx /\
    (forall i, In i idx <->
               exists a, nth_error df i = Some a /\ in_range start_date end_date a) /\
    map Some (filter_by_date df start_date end_date) = map (nth_error df) idx.
Proof.
  induction df as [|r df (idx & Hs & Hin & Hmap)].
  - exists []. split; [constructor|]. split; [|reflexivity].
    intros i. split; [intros []|]. intros (a & Ha & _). destruct i; discriminate.
  - assert (Hr : (match date r with
                  | Some d => (start_date <=? d)%Z && (d <=? end_date)%Z
                  | None => false
                  end) = true <-> in_range start_date end_date r).
    { unfold in_range. destruct (date r) as [d|].
      - rewrite andb_true_iff, !Z.leb_le. split.
        + intros H. exists d. auto.
        + intros (d' & E & H). injection E as <-. exact H.
      - split; [discriminate | intros (d & E & _); discriminate]. }
    assert (Hs' : StronglySorted lt (map S idx)).
    { clear -Hs. induction Hs as [|i idx _ IH Hi]; cbn [map]; constructor;
        [exact IH|].
      apply Forall_forall. intros j Hj. apply in_map_iff in Hj as (j' & <- & Hj').
      rewrite Forall_forall in Hi. specialize (Hi j' Hj'). lia. }
    assert (Hmap' : map Some (filter_by_date df start_date end_date)
                    = map (nth_error (r :: df)) (map S idx))
      by (rewrite map_map; exact Hmap).
    assert (Hin' : forall i, In (S i) (map S idx) <->
                     exists a, nth_error df i = Some a /\
                               in_range start_date end_date a).
    { intros i. rewrite <- Hin. rewrite in_map_iff. split.
      - intros (j & E & Hj). now injection E as <-.
      - intros Hi. exists i. auto. }
    unfold filter_by_date in *. cbn [filter].
    destruct (match date r with
              | Some d => (start_date <=? d)%Z && (d <=? end_date)%Z
              | None => false
              end) eqn:Em.
    + exists (0%nat :: map S idx). split; [|split].
      * constructor; [exact Hs'|]. apply Forall_forall. intros j Hj.
        apply in_map_iff in Hj as (j' & <- & _). lia.
      * intros [|i].
        -- split; [|now left]. intros _. exists r. split; [reflexivity|].
           now apply Hr.
        -- cbn [In nth_error]. rewrite <- Hin'. split; [|now right].
           intros [H|H]; [discriminate | exact H].
      * cbn [map nth_error]. f_equal. exact Hmap'.
    + exists (map S idx). split; [exact Hs'|]. split; [|exact Hmap'].
      intros [|i].
      * split.
        -- intros H. apply in_map_iff in H as (j & E & _). discriminate.
        -- intros (a & Ha & Hra). injection Ha as <-. apply Hr in Hra. congruence.
      * cbn [nth_error]. apply Hin'.
Qed.

(** X2: when the end date lies before the start date, [main] shows both the
    warning and the empty-range message, and no frame goes on to the
    clustering, whatever the data. *)
Theorem inverted_range_shows_no_articles (df : list article) (start_date end_date : Z) :
  (end_date < start_date)%Z ->
  main_date_range df start_date end_date
  = ([EndDateMustFallAfterStartDate; NoArticlesFound], None).
Proof.
  intros H. unfold main_date_range.
  rewrite (proj2 (Z.ltb_lt end_date start_date) H).
  assert (E : filter_by_date df (to_datetime start_date) (to_datetime end_date) = []).
  { destruct (filter_by_date df (to_datetime start_date) (to_datetime end_date))
      as [|a l] eqn:Ef; [reflexivity|].
    assert (Hin : In a (a :: l)) by now left.
    rewrite <- Ef in Hin. apply filter_by_date_In in Hin as (_ & t & _ & H1 & H2).
    unfold to_datetime, ns_per_day in *. lia. }
  rewrite E. reflexivity.
Qed.

(** X3: the frame that [main] passes on is not empty and holds exactly the
    articles dated from midnight of the start date to midnight of the end
    date, so an article of the end date dated after midnight is left out, as
    is every article without a date. *)
Theorem date_range_ends_at_midnight
    (df df_filtered : list article) (start_date end_date : Z) (shown : list notice) :
  main_date_range df start_date end_date = (shown, Some df_filtered) ->
  df_filtered <> [] /\
  ~ In NoArticlesFound shown /\
  (forall a, In a df_filtered <->
             In a df /\ in_range (to_datetime start_date) (to_datetime end_date) a) /\
  (forall a t, In a df -> date a = Some t ->
               (to_datetime end_date < t)%Z -> ~ In a df_filtered) /\
  (forall a, In a df -> date a = None -> ~ In a df_filtered).
Proof.
  unfold main_date_range.
  destruct (filter_by_date df (to_datetime start_date) (to_datetime end_date))
    as [|r l] eqn:Ef; [discriminate|].
  intros H. injection H as <- <-.
  split; [discriminate|]. split.
  { destruct (end_date <? start_date)%Z; cbn; intuition discriminate. }
  rewrite <- Ef. split; [intros a; apply filter_by_date_In|]. split.
  - intros a t Ha Ht Hlate Hin.
    apply filter_by_date_In in Hin as (_ & t' & E & H1 & H2). rewrite Ht in E.
    injection E as <-. lia.
  - intros a Ha Hd Hin.
    apply filter_by_date_In in Hin as (_ & t' & E & _). congruence.
Qed.

Variable word_tokenize : str -> list str.
Variable lemmatize : str -> str.

Lemma preprocess_text_eq (df : list article) (stopwords : list str) :
  preprocess_text word_tokenize lemmatize df stopwords =
  map (fun a => set_cleaned_article a
                  (lemmatize_words lemmatize
                     (remove_stopwords word_tokenize stopwords (cleaned_article a))))
      df.
Proof. unfold preprocess_text. rewrite map_map. reflexivity. Qed.

(** X4: provided the tokens and the lemmas are non-empty and free of white
    space, [preprocess_text] keeps the rows and their dates, and the words of
    each processed text are the lemmas of the tokens of the original text
    that are not stop words, in their order; before lemmatisation no word of
    the text is a stop word. *)
Theorem preprocess_text_words (df : list article) (stopwords : list str) :
  (forall text, Forall clean_word (word_tokenize text)) ->
  (forall w, clean_word w -> clean_word (lemmatize w)) ->
  Forall2
    (fun a a' =>
       date a' = date a /\
       let kept :=
         filter (fun w => negb (mem w stopwords)) (word_tokenize (cleaned_article a)) in
       split (remove_stopwords word_tokenize stopwords (cleaned_article a)) = kept /\
       Forall (fun w => ~ In w stopwords) kept /\
       split (cleaned_article a') = map lemmatize kept)
    df (preprocess_text word_tokenize lemmatize df stopwords).
Proof.
  intros Htok Hlem. rewrite preprocess_text_eq.
  induction df as [|a df IH]; cbn [map]; constructor; [|exact IH].
  cbn [set_cleaned_article date cleaned_article]. split; [reflexivity|].
  set (kept := filter (fun w => negb (mem w stopwords))
                      (word_tokenize (cleaned_article a))).
  assert (Hkept : Forall clean_word kept).
  { apply Forall_forall. intros w Hw. apply filter_In in Hw as [Hw _].
    specialize (Htok (cleaned_article a)). rewrite Forall_forall in Htok. auto. }
  assert (Hsplit : split (remove_stopwords word_tokenize stopwords (cleaned_article a))
                   = kept)
    by (unfold remove_stopwords; now apply split_join_words).
  split; [exact Hsplit|]. split.
  - apply Forall_forall. intros w Hw. apply filter_In in Hw as [_ Hw].
    apply negb_true_iff in Hw. intros Hin. apply mem_In in Hin. congruence.
  - unfold lemmatize_words. rewrite Hsplit. apply split_join_words.
    apply Forall_forall. intros w Hw. apply in_map_iff in Hw as (u & <- & Hu).
    apply Hlem. rewrite Forall_forall in Hkept. auto.
Qed.

Variable image : Type.
Variable generate_from_frequencies : counter -> result image.

Lemma occurrences_concat (w : str) (ls : list (list str)) :
  occurrences w (concat ls) = list_sum (map (occurrences w) ls).
Proof.
  unfold occurrences. induction ls as [|l ls IH]; [reflexivity|].
  cbn [concat map]. rewrite count_occ_app. unfold list_sum in *.
  cbn [fold_right]. f_equal. exact IH.
Qed.

Lemma generate_wordcloud_ok (df : list (article * nat)) (cluster : nat)
    (wordcloud : image) (common_words : counter) :
  generate_wordcloud generate_from_frequencies df cluster = Ok (wordcloud, common_words) ->
  common_words
  = most_common 10 (Counter (concat (map split (cluster_texts df cluster)))).
Proof.
  unfold generate_wordcloud. fold (cluster_texts df cluster).
  rewrite split_join.
  destruct (generate_from_frequencies _); cbn [rbind]; [|discriminate].
  intros H. now injection H.
Qed.

(** X5: every common word returned by [generate_wordcloud] comes with the
    number of its occurrences in the articles of the cluster, summed over the
    articles, and this number is not 0; no word is listed twice. *)
Theorem common_words_counts (df : list (article * nat)) (cluster : nat)
    (wordcloud : image) (common_words : counter) :
  generate_wordcloud generate_from_frequencies df cluster = Ok (wordcloud, common_words) ->
  NoDup (keys common_words) /\
  forall w n, In (w, n) common_words ->
    n = cluster_occurrences df cluster w /\ 1 <= n.
Proof.
  intros H. apply generate_wordcloud_ok in H. subst common_words.
  set (words := concat (map split (cluster_texts df cluster))).
  destruct (Counter_items words) as [Hnd Hitems].
  destruct (most_common_spec 10 (Counter words)) as (_ & _ & _ & Hin & Hnd' & _).
  split; [now apply Hnd'|].
  intros w n Hw. apply Hin, Hitems in Hw as [-> Hn]. split; [|assumption].
  unfold words, cluster_occurrences. rewrite occurrences_concat, map_map. reflexivity.
Qed.

Lemma keys_grow (words : list str) :
  forall c w, In w (keys c) \/ In w words ->
              In w (keys (fold_left (fun c w => counter_add w c) words c)).
Proof.
  induction words as [|x words IH]; intros c w [H|H]; cbn [fold_left];
    try assumption; try destruct H.
  - apply IH. left. rewrite keys_add. destruct (mem x (keys c)); [assumption|].
    apply in_or_app. now left.
  - subst x. apply IH. left. rewrite keys_add.
    destruct (mem w (keys c)) eqn:E; [now apply mem_In|].
    apply in_or_app. right. now left.
  - apply IH. now right.
Qed.

Lemma Counter_complete (words : list str) (w : str) :
  In w words -> In (w, occurrences w words) (Counter words).
Proof.
  intros Hw.
  assert (Hk : In w (keys (Counter words))) by (apply keys_grow; now right).
  unfold keys in Hk. apply in_map_iff in Hk as ([u n] & E & Hin). cbn in E. subst u.
  destruct (Counter_items words) as [_ Hitems].
  destruct (Hitems w n Hin) as [-> _]. exact Hin.
Qed.

(** X6: [generate_wordcloud] returns at most ten common words (all words of
    the cluster when it has at most ten distinct ones), by non-increasing
    count, and a word of the cluster that is not listed does not occur more
    often than any listed word. *)
Theorem common_words_are_the_most_frequent (df : list (article * nat)) (cluster : nat)
    (wordcloud : image) (common_words : counter) :
  generate_wordcloud generate_from_frequencies df cluster = Ok (wordcloud, common_words) ->
  length common_words <= 10 /\
  StronglySorted count_ge common_words /\
  (forall w, 1 <= cluster_occurrences df cluster w ->
             In w (keys common_words) \/
             (length common_words = 10 /\
              forall u n, In (u, n) common_words ->
                          cluster_occurrences df cluster w <= n)).
Proof.
  intros H. apply generate_wordcloud_ok in H. subst common_words.
  set (words := concat (map split (cluster_texts df cluster))).
  assert (Hocc : forall w, cluster_occurrences df cluster w = occurrences w words)
    by (intros w; unfold words, cluster_occurrences;
        rewrite occurrences_concat, map_map; reflexivity).
  destruct (most_common_spec 10 (Counter words)) as (Hlen & Hmin & Hs & _ & _ & Htop).
  split; [exact Hlen|]. split; [exact Hs|].
  intros w Hw. rewrite Hocc in Hw.
  assert (Hin : In w words).
  { unfold occurrences in Hw.
    apply (count_occ_In (list_eq_dec N.eq_dec)). lia. }
  apply Counter_complete in Hin.
  destruct (in_dec (list_eq_dec N.eq_dec) w (keys (most_common 10 (Counter words))))
    as [Hk|Hk]; [now left|right].
  assert (Hnot : ~ In (w, occurrences w words) (most_common 10 (Counter words))).
  { intros Hc. apply Hk. unfold keys.
    change w with (fst (w, occurrences w words)). now apply in_map. }
  split.
  - rewrite Hmin. destruct (Nat.le_gt_cases 10 (length (Counter words))) as [L|L]; [lia|].
    exfalso. apply Hnot. unfold most_common.
    rewrite firstn_all2 by (rewrite (Permutation_length (sorted_by_count_perm _)); lia).
    apply (Permutation_in _ (Permutation_sym (sorted_by_count_perm _))). exact Hin.
  - intros u n Hu. rewrite Hocc.
    exact (Htop (u, n) (w, occurrences w words) Hu Hin Hnot).
Qed.

End FrameFacts.


(** ** Model selection and clustering: failure, duplicates, composition *)

Section EngineExtras.
Import FloatOrder NpFacts SkFacts LoopFacts.

Variable rng : Type.
Variable seed_state : Z -> rng.
Variable draw : rng -> nat -> nat -> list nat * rng.
Variable silhouette_score : matrix -> list nat -> result float.

Lemma find_optimal_trial_any_state (X : matrix) (k : Z) (g1 g2 : rng) :
  find_optimal_trial seed_state draw silhouette_score X k g1
  = find_optimal_trial seed_state draw silhouette_score X k g2.
Proof.
  rewrite !(find_optimal_trial_eq rng seed_state draw silhouette_score). reflexivity.
Qed.

Lemma find_optimal_for_all_ok (ks : list Z) (X : matrix) (g : rng) :
  Forall (fun k => exists c g1,
            find_optimal_trial seed_state draw silhouette_score X k g = (Ok c, g1)) ks ->
  forall acc g0, exists cands g',
    find_optimal_for seed_state draw silhouette_score ks X acc g0 = (Ok cands, g') /\
    length cands = length acc + length ks.
Proof.
  induction 1 as [|k ks (c & g1 & Hk) _ IH]; intros acc g0.
  - exists acc, g0. split; [reflexivity | cbn; lia].
  - cbn [find_optimal_for]. unfold bind.
    rewrite (find_optimal_trial_any_state X k g0 g), Hk.
    destruct (IH (acc ++ [c]) g1) as (cands & g' & Hf & Hlen).
    exists cands, g'. split; [exact Hf|].
    rewrite Hlen, length_app. cbn. lia.
Qed.

Lemma find_optimal_for_raise (ks : list Z) (X : matrix) (g : rng) :
  forall acc g0 e g',
    find_optimal_for seed_state draw silhouette_score ks X acc g0 = (Raise e, g') ->
    exists ks1 k ks2,
      ks = ks1 ++ k :: ks2 /\
      Forall (fun k' => exists c g1,
                find_optimal_trial seed_state draw silhouette_score X k' g = (Ok c, g1))
             ks1 /\
      find_optimal_trial seed_state draw silhouette_score X k g = (Raise e, g').
Proof.
  induction ks as [|k ks IH]; intros acc g0 e g' H.
  - discriminate.
  - cbn [find_optimal_for] in H. unfold bind in H.
    destruct (find_optimal_trial seed_state draw silhouette_score X k g0) as [[c|e1] g1] eqn:Ht.
    + apply IH in H as (ks1 & k1 & ks2 & -> & Hok & Hk1).
      exists (k :: ks1), k1, ks2. split; [reflexivity|]. split; [|exact Hk1].
      constructor; [|exact Hok]. exists c, g1.
      now rewrite (find_optimal_trial_any_state X k g g0).
    + injection H as <- <-. exists [], k, ks. split; [reflexivity|].
      split; [constructor|]. now rewrite (find_optimal_trial_any_state X k g g0).
Qed.

(** X7: [find_optimal_clusters] returns a cluster count exactly when the trial
    for every k from 2 to 10 runs through, clustering and scoring
    included. *)
Theorem selection_returns_iff_all_trials_succeed (X : matrix) (g : rng) :
  (exists best_k g',
     find_optimal_clusters seed_state draw silhouette_score X g = (Ok best_k, g')) <->
  Forall (fun k => exists c g1,
            find_optimal_trial seed_state draw silhouette_score X k g = (Ok c, g1)) K.
Proof.
  split.
  - intros (best_k & g' & H).
    apply (find_optimal_clusters_ok rng seed_state draw silhouette_score) in H
      as (cands & i & _ & Htrials & _).
    clear i. induction Htrials as [|k c ks cs (g0 & g1 & Ht) _ IH]; constructor; [|exact IH].
    exists c, g1. now rewrite (find_optimal_trial_any_state X k g g0).
  - intros H.
    destruct (find_optimal_for_all_ok K X g H [] g) as (cands & g' & Hf & Hlen).
    unfold find_optimal_clusters, find_optimal_candidates, bind, lift, ret.
    rewrite Hf.
    destruct cands as [|c cands]; [cbn in Hlen; lia|].
    cbn [map Np.argmax]. eauto.
Qed.

(** X8: when [find_optimal_clusters] raises, the exception is that of the
    first k whose trial fails: the trials of all smaller k ran through, and
    the generator is left in the state of the failing trial. *)
Theorem selection_raises_the_first_failure (X : matrix) (g g' : rng) (e : error) :
  find_optimal_clusters seed_state draw silhouette_score X g = (Raise e, g') ->
  exists ks1 k ks2,
    K = ks1 ++ k :: ks2 /\
    Forall (fun k' => exists c g1,
              find_optimal_trial seed_state draw silhouette_score X k' g = (Ok c, g1))
           ks1 /\
    find_optimal_trial seed_state draw silhouette_score X k g = (Raise e, g').
Proof.
  unfold find_optimal_clusters, find_optimal_candidates, bind, lift, ret.
  destruct (find_optimal_for seed_state draw silhouette_score K X [] g)
    as [[cands|e1] g1] eqn:Hf.
  - pose proof (find_optimal_for_ok rng seed_state draw silhouette_score _ _ _ _ _ _ Hf)
      as (cs & -> & Hcs).
    apply Forall2_nth in Hcs as [Hlen _]. cbn [app].
    destruct cs as [|c cs]; [discriminate Hlen|].
    cbn [map Np.argmax]. discriminate.
  - intros H. injection H as <- <-.
    exact (find_optimal_for_raise K X g [] g e1 g1 Hf).
Qed.

(** X9: on a matrix with fewer than ten rows [find_optimal_clusters] never
    returns: it raises, at the latest when ten initial centroids are drawn
    for k = 10. *)
Theorem selection_needs_ten_rows (X : matrix) (g : rng) :
  length X < 10 ->
  exists e g', find_optimal_clusters seed_state draw silhouette_score X g = (Raise e, g').
Proof.
  intros HN.
  destruct (find_optimal_clusters seed_state draw silhouette_score X g)
    as [[best_k|e] g'] eqn:H; [|eauto].
  exfalso.
  apply (find_optimal_clusters_ok rng seed_state draw silhouette_score) in H
    as (cands & i & _ & Htrials & _).
  apply Forall2_nth in Htrials as [Hlen Hnth].
  destruct (Hnth 8 0%Z no_candidate) as (g0 & g1 & Ht); [cbn; lia|].
  apply (find_optimal_trial_ok rng seed_state draw silhouette_score) in Ht as (Hr & _).
  cbn in Hr. lia.
Qed.

Lemma perform_clustering_ok (X : matrix) (k : Z) (g g' : rng) (labels : list nat) :
  perform_clustering seed_state draw X k g = (Ok labels, g') ->
  (0 <= k <= Z.of_nat (length X))%Z /\
  exists n,
    perform_clustering_loop 100 X (Z.to_nat k)
      (Np.take X (seeded_indices seed_state draw (length X) (Z.to_nat k))) [] 0
    = Ok (labels, n).
Proof.
  rewrite (perform_clustering_eq rng seed_state draw),
    (perform_clustering_run_eq rng seed_state draw).
  destruct (choice_error (length X) k) eqn:E; [discriminate|].
  apply choice_error_none in E.
  destruct (perform_clustering_loop 100 X (Z.to_nat k)
              (Np.take X (seeded_indices seed_state draw (length X) (Z.to_nat k))) [] 0)
    as [[l n]|e] eqn:Hloop; [|discriminate].
  intros H. injection H as <- _. eauto.
Qed.

Lemma loop_first_step (n : nat) (X : matrix) (k : nat) (C0 : matrix)
    (l labels : list nat) (it m : nat) :
  perform_clustering_loop (S n) X k C0 l it = Ok (labels, m) ->
  exists l' C', lloyd_step X k C0 = Ok (l', C').
Proof.
  rewrite perform_clustering_loop_step.
  destruct (lloyd_step X k C0) as [[l' C']|e]; [eauto | discriminate].
Qed.

Lemma loop_last_step (X : matrix) (k : nat) (C0 : matrix) (labels : list nat) (m : nat) :
  perform_clustering_loop 100 X k C0 [] 0 = Ok (labels, m) ->
  exists C C', lloyd_step X k C = Ok (labels, C').
Proof.
  intros H. apply perform_clustering_loop_stops in H as (n & _ & Hn); [|lia].
  destruct Hn as (_ & _ & C & C' & _ & Hs & _). eauto.
Qed.

(** X10: [perform_clustering] returns a labelling only for a matrix with at
    least one row and one column and without NaN or infinite entries, and
    only for a cluster count from 1 to the number of rows. *)
Theorem clustering_requires_valid_input
    (X : matrix) (k : Z) (g g' : rng) (labels : list nat) :
  draw_ok draw ->
  perform_clustering seed_state draw X k g = (Ok labels, g') ->
  X <> [] /\ (0 < ncols X)%nat /\ Sk.all_finite X = true /\
  (1 <= k <= Z.of_nat (length X))%Z.
Proof.
  intros Hdraw H. apply perform_clustering_ok in H as (Hk & n & Hloop).
  apply loop_first_step in Hloop as (l' & C' & Hs).
  apply lloyd_step_ok in Hs as (HD & _).
  apply cosine_distances_ok in HD as (_ & HfX & HnX & HcX & _ & HnC & _).
  repeat split; try assumption; try lia.
  destruct (Z.eq_dec k 0) as [->|]; [|lia].
  exfalso. apply HnC. cbn [Z.to_nat].
  assert (Hidx : seeded_indices seed_state draw (length X) 0 = []).
  { apply length_zero_iff_nil. unfold seeded_indices. apply Hdraw. lia. }
  rewrite Hidx. reflexivity.
Qed.

(** X11: two rows of the matrix with the same entries get the same label. *)
Theorem equal_rows_get_equal_labels
    (X : matrix) (k : Z) (g g' : rng) (labels : list nat) (i j : nat) (x : vec) :
  perform_clustering seed_state draw X k g = (Ok labels, g') ->
  nth_error X i = Some x ->
  nth_error X j = Some x ->
  exists l, nth_error labels i = Some l /\ nth_error labels j = Some l.
Proof.
  intros H Hi Hj. apply perform_clustering_ok in H as (_ & n & Hloop).
  apply loop_last_step in Hloop as (C & C' & Hs).
  destruct (lloyd_step_row _ _ _ _ _ Hs i x Hi) as (li & Hli & Hai).
  destruct (lloyd_step_row _ _ _ _ _ Hs j x Hj) as (lj & Hlj & Haj).
  exists li. split; [assumption|]. congruence.
Qed.

Lemma argmin_scan_constant (d : float) (rest : vec) (i : nat) :
  is_nan d = false -> Forall (eq d) rest -> Np.argmin_scan d 0 i rest = 0.
Proof.
  intros Hd. revert i. induction rest as [|x rest IH]; intros i H; [reflexivity|].
  inversion H as [|? ? Hx Hrest]; subst.
  cbn [Np.argmin_scan]. rewrite (leb_refl _ Hd). now apply IH.
Qed.

Lemma argmin_constant (d : float) (row : vec) :
  row <> [] -> Forall (eq d) row -> Np.argmin row = Ok 0.
Proof.
  destruct row as [|x rest]; [congruence|]. intros _ H.
  inversion H as [|? ? Hx Hrest]; subst. cbn [Np.argmin]. unfold Np.isnan.
  destruct (is_nan x) eqn:E; [reflexivity|].
  now rewrite argmin_scan_constant.
Qed.

Lemma select_none (X : matrix) (labels : list nat) (j : nat) :
  Forall (fun l => l <> j) labels -> Np.select X labels j = [].
Proof.
  revert labels. induction X as [|r X IH]; intros [|l labels] H; try reflexivity.
  inversion H as [|? ? Hl Hrest]; subst. cbn [Np.select].
  rewrite (proj2 (Nat.eqb_neq l j) Hl). now apply IH.
Qed.

(** An iteration that leaves a cluster empty, followed by another one. *)
Lemma empty_cluster_aborts (X : matrix) (k : nat) (C : matrix) (labels : list nat)
    (C' : matrix) (j n : nat) (l : list nat) (it : nat) :
  length C = k ->
  rectangular (ncols X) C ->
  lloyd_step X k C = Ok (labels, C') ->
  j < k ->
  Np.select X labels j = [] ->
  perform_clustering_loop (S (S n)) X k C l it = Raise NonFiniteInput.
Proof.
  intros Hlen Hrect Hs Hj Hempty.
  pose proof Hs as Hs'.
  apply lloyd_step_ok in Hs' as (HD & _ & HC').
  apply cosine_distances_ok in HD as (_ & HfX & HnX & HcX & HfC & HnC & HcC).
  assert (Hnth : nth j C' [] = repeat nan (ncols X)).
  { rewrite HC', recompute_centroids_nth by exact Hj.
    rewrite Hempty. apply mean_axis0_empty. }
  assert (HlenC' : length C' = k)
    by (rewrite HC'; apply recompute_centroids_length).
  assert (Hne : Np.all_eq C C' = false).
  { apply (all_eq_false_at C C' j); try lia.
    rewrite Hnth. apply vec_eqb_nan_row; [|exact HcX].
    assert (Hin : In (nth j C []) C) by (apply nth_In; lia).
    unfold rectangular in Hrect. rewrite Forall_forall in Hrect.
    specialize (Hrect _ Hin). intros Heq. rewrite Heq in Hrect. simpl in Hrect. lia. }
  assert (Hraise : lloyd_step X k C' = Raise NonFiniteInput).
  { unfold lloyd_step, Sk.cosine_distances, Sk.cosine_similarity,
      Sk.check_pairwise_arrays.
    assert (HX : Sk.check_array X = Ok X) by (apply check_array_ok; auto).
    rewrite HX. cbn [rbind]. unfold Sk.check_array.
    rewrite (all_finite_false_at C' j (ncols X)) by (try lia; assumption).
    reflexivity. }
  rewrite perform_clustering_loop_step, Hs, Hne.
  rewrite perform_clustering_loop_step, Hraise. reflexivity.
Qed.

Lemma take_of_equal_rows (X : matrix) (x : vec) (idx : list nat) :
  Forall (eq x) X -> Forall (fun i => i < length X) idx ->
  Forall (eq x) (Np.take X idx).
Proof.
  intros HX Hidx. unfold Np.take. apply Forall_forall. intros r Hr.
  apply in_map_iff in Hr as (i & <- & Hi).
  rewrite Forall_forall in HX, Hidx. apply HX. apply nth_In. now apply Hidx.
Qed.

Lemma all_finite_rows (C : matrix) (x : vec) :
  Forall (eq x) C -> forallb Np.isfinite x = true -> Sk.all_finite C = true.
Proof.
  intros HC Hx. unfold Sk.all_finite. apply forallb_forall. intros r Hr.
  rewrite Forall_forall in HC. now rewrite <- (HC r Hr).
Qed.

(** X12: a matrix whose rows are all equal cannot be split: for any cluster
    count from 2 to the number of rows [perform_clustering] raises.  All rows
    go to cluster 0, cluster 1 stays empty, its centroid becomes NaN and the
    second iteration rejects it. *)
Theorem equal_rows_cannot_be_split (X : matrix) (x : vec) (k : Z) (g : rng) :
  draw_ok draw ->
  Forall (eq x) X ->
  (2 <= k <= Z.of_nat (length X))%Z ->
  exists e,
    fst (perform_clustering seed_state draw X k g) = Raise e /\
    (e = NonFiniteInput \/ e = EmptyArray).
Proof.
  intros Hdraw HX Hk.
  rewrite (perform_clustering_eq rng seed_state draw),
    (perform_clustering_run_eq rng seed_state draw).
  rewrite (proj2 (choice_error_none (length X) k)) by lia.
  set (idx := seeded_indices seed_state draw (length X) (Z.to_nat k)).
  destruct (Hdraw (seed_state 42%Z) (length X) (Z.to_nat k)) as (Hlen & _ & Hrange);
    [lia|]. fold (seeded_indices seed_state draw (length X) (Z.to_nat k)) in Hlen, Hrange.
  fold idx in Hlen, Hrange.
  set (C0 := Np.take X idx).
  assert (HC0 : Forall (eq x) C0) by (apply take_of_equal_rows; assumption).
  assert (HlenC0 : length C0 = Z.to_nat k) by (unfold C0; now rewrite take_length).
  destruct (Sk.check_array X) as [X'|e1] eqn:Hcheck.
  - apply check_array_ok in Hcheck as (_ & HfX & HnX & HcX).
    assert (Hx : ncols X = length x /\ forallb Np.isfinite x = true).
    { destruct X as [|r X0]; [congruence|].
      inversion HX as [|? ? Hr _]; subst r. cbn [ncols]. split; [reflexivity|].
      unfold Sk.all_finite in HfX. cbn [forallb] in HfX.
      now apply andb_true_iff in HfX. }
    destruct Hx as [Hcols Hfx].
    assert (HnC0 : C0 <> []) by (intros E; rewrite E in HlenC0; cbn in HlenC0; lia).
    assert (HcC0 : ncols C0 = ncols X).
    { destruct C0 as [|r C1]; [congruence|].
      inversion HC0 as [|? ? Hr _]; subst r. cbn [ncols]. congruence. }
    assert (HD : Sk.cosine_distances X C0 = Ok (distance_table X C0)).
    { apply cosine_distances_ok. repeat split; try assumption.
      now apply (all_finite_rows C0 x). }
    assert (Hlabels : Np.argmin_axis1 (distance_table X C0) = Ok (repeat 0 (length X))).
    { apply rmap_ok. unfold distance_table.
      assert (Hrows : forall X0, Forall (eq x) X0 ->
                Forall2 (fun a b => Np.argmin a = Ok b)
                  (map (distances_of_row C0) X0) (repeat 0 (length X0))); [|now apply Hrows].
      clear -HC0 HnC0. intros X0 HX0.
      induction HX0 as [|r X0 Hr _ IH]; cbn [map length repeat]; constructor; [|exact IH].
      subst r. apply (argmin_constant
        (Sk.cosine_distance_of (Sk.dot (Sk.normalize_row x) (Sk.normalize_row x)))).
      - unfold distances_of_row. destruct C0; [congruence | discriminate].
      - unfold distances_of_row. apply Forall_forall. intros d Hd.
        apply in_map_iff in Hd as (c & <- & Hc).
        rewrite Forall_forall in HC0. now rewrite <- (HC0 c Hc). }
    assert (Hs : lloyd_step X (Z.to_nat k) C0
                 = Ok (repeat 0 (length X),
                       recompute_centroids X (repeat 0 (length X)) (Z.to_nat k)))
      by (apply lloyd_step_ok; auto).
    exists NonFiniteInput. split; [|now left].
    change 100 with (S (S 98)).
    rewrite (empty_cluster_aborts X (Z.to_nat k) C0 (repeat 0 (length X))
               (recompute_centroids X (repeat 0 (length X)) (Z.to_nat k))
               1 98 [] 0 HlenC0); try assumption.
    + reflexivity.
    + unfold rectangular. eapply Forall_impl; [|exact HC0].
      intros r Hr. subst r. congruence.
    + lia.
    + apply select_none. apply Forall_forall. intros l Hl.
      apply repeat_spec in Hl. lia.
  - exists e1. split.
    + change 100 with (S 99). rewrite perform_clustering_loop_step.
      unfold lloyd_step, Sk.cosine_distances, Sk.cosine_similarity,
        Sk.check_pairwise_arrays. rewrite Hcheck. reflexivity.
    + destruct (check_array_raise _ _ Hcheck); auto.
Qed.

(** X13: once [find_optimal_clusters] has returned a cluster count, the call
    of [perform_clustering] with that count in [main] cannot fail.  The
    labelling has one label per row, so it fits the frame as a column, the
    labels lie below the count, which is at most 10, and the matrix has at
    least ten rows. *)
Theorem select_and_cluster_succeeds
    (X : matrix) (g g1 : rng) (best_k : Z) (df_filtered : list article) :
  draw_ok draw ->
  find_optimal_clusters seed_state draw silhouette_score X g = (Ok best_k, g1) ->
  length df_filtered = length X ->
  exists labels g2,
    select_and_cluster seed_state draw silhouette_score X g
    = (Ok (best_k, labels), g2) /\
    (2 <= best_k <= 10)%Z /\
    10 <= length X /\
    length labels = length X /\
    Forall (fun l => (Z.of_nat l < best_k)%Z) labels /\
    assign_clusters df_filtered labels = Some (combine df_filtered labels).
Proof.
  intros Hdraw H Hdf. unfold select_and_cluster, bind, ret. rewrite H.
  apply (find_optimal_clusters_ok rng seed_state draw silhouette_score) in H
    as (cands & i & _ & Htrials & _ & Hi & ->).
  pose proof (Forall2_nth _ _ _ Htrials) as [Hlen Hnth].
  destruct (Hnth 8 0%Z no_candidate) as (g0 & g3 & Ht10); [cbn; lia|].
  apply (find_optimal_trial_ok rng seed_state draw silhouette_score) in Ht10 as (Hr10 & _).
  cbn in Hr10.
  destruct (Hnth i 0%Z no_candidate) as (g4 & g5 & Ht); [cbn; lia|].
  apply (find_optimal_trial_ok rng seed_state draw silhouette_score) in Ht
    as (Hrange & _ & (n & Hloop) & _).
  rewrite loops_agree in Hloop.
  rewrite (perform_clustering_eq rng seed_state draw),
    (perform_clustering_run_eq rng seed_state draw).
  rewrite (proj2 (choice_error_none (length X) (nth i K 0%Z)) Hrange), Hloop.
  cbn [fst].
  assert (HlenC0 : length (Np.take X (seeded_indices seed_state draw (length X)
                                       (Z.to_nat (nth i K 0%Z))))
                   = Z.to_nat (nth i K 0%Z)).
  { rewrite take_length. unfold seeded_indices.
    apply (Hdraw (seed_state 42%Z) (length X) (Z.to_nat (nth i K 0%Z))). lia. }
  pose proof (perform_clustering_loop_labels X _ _ _ n HlenC0 Hloop) as [Hl1 Hl2].
  eexists; eexists. split; [reflexivity|].
  rewrite K_nth in * by assumption.
  repeat split; try lia.
  - eapply Forall_impl; [|exact Hl2]. cbv beta. intros l Hl. lia.
  - unfold assign_clusters. now rewrite Hdf, Hl1, Nat.eqb_refl.
Qed.

End EngineExtras.


(** ** Runs on the sample frame and the small matrices *)

Section MoreRuns.
Import Py PyFacts.

Lemma sample_lemmatize_words (w : str) :
  clean_word w -> clean_word (Sample.lemmatize w).
Proof.
  intros [Hne Hsp]. unfold Sample.lemmatize.
  destruct (rev w) as [|c [|d r]] eqn:E; try (split; assumption).
  destruct (N.eqb c 115); [|split; assumption].
  assert (Hw : w = rev (d :: r) ++ [c]).
  { rewrite <- (rev_involutive w), E. reflexivity. }
  split.
  - cbn [rev]. intros H. now apply app_eq_nil in H as [_ H].
  - rewrite Hw in Hsp. now apply Forall_app in Hsp as [Hsp _].
Qed.

(** X2, on the sample frame with the two dates exchanged. *)
Lemma inverted_range_shows_no_articles_run :
  main_date_range Sample.frame (Sample.day0 + 2) Sample.day0
  = ([EndDateMustFallAfterStartDate; NoArticlesFound], None).
Proof.
  apply (inverted_range_shows_no_articles Sample.frame (Sample.day0 + 2) Sample.day0).
  reflexivity.
Defined.

(** X3, on the sample frame from 2016-01-01 to 2016-01-03: the first two
    articles go on; the article of 18:00 on 2016-01-03 and the undated one do
    not. *)
Lemma date_range_ends_at_midnight_run :
  main_date_range Sample.frame Sample.day0 (Sample.day0 + 2)
  = ([], Some (firstn 2 Sample.frame)) /\
  (firstn 2 Sample.frame <> [] /\
   ~ In NoArticlesFound [] /\
   (forall a, In a (firstn 2 Sample.frame) <->
              In a Sample.frame /\
              in_range (to_datetime Sample.day0) (to_datetime (Sample.day0 + 2)) a) /\
   (forall a t, In a Sample.frame -> date a = Some t ->
                (to_datetime (Sample.day0 + 2) < t)%Z ->
                ~ In a (firstn 2 Sample.frame)) /\
   (forall a, In a Sample.frame -> date a = None -> ~ In a (firstn 2 Sample.frame))).
Proof.
  assert (H : main_date_range Sample.frame Sample.day0 (Sample.day0 + 2)
              = ([], Some (firstn 2 Sample.frame))) by reflexivity.
  split; [exact H|].
  exact (date_range_ends_at_midnight Sample.frame (firstn 2 Sample.frame)
           Sample.day0 (Sample.day0 + 2) [] H).
Defined.

(** X4, on the sample frame, with white-space splitting as the tokeniser. *)
Lemma preprocess_text_words_run :
  Forall2
    (fun a a' =>
       date a' = date a /\
       let kept :=
         filter (fun w => negb (mem w Sample.stop_words)) (split (cleaned_article a)) in
       split (remove_stopwords split Sample.stop_words (cleaned_article a)) = kept /\
       Forall (fun w => ~ In w Sample.stop_words) kept /\
       split (cleaned_article a') = map Sample.lemmatize kept)
    Sample.frame
    (preprocess_text split Sample.lemmatize Sample.frame Sample.stop_words).
Proof.
  apply (preprocess_text_words split Sample.lemmatize Sample.frame Sample.stop_words).
  - exact split_words.
  - exact sample_lemmatize_words.
Defined.

(** X5, on cluster 0 of the sample frame. *)
Lemma common_words_counts_run :
  generate_wordcloud Sample.generate_from_frequencies Sample.clustered 0
  = Ok (Sample.wordcloud, Sample.common_words) /\
  (NoDup (keys Sample.common_words) /\
   forall w n, In (w, n) Sample.common_words ->
     n = cluster_occurrences Sample.clustered 0 w /\ 1 <= n).
Proof.
  assert (H : generate_wordcloud Sample.generate_from_frequencies Sample.clustered 0
              = Ok (Sample.wordcloud, Sample.common_words))
    by (vm_compute; reflexivity).
  split; [exact H|].
  exact (common_words_counts Py.counter Sample.generate_from_frequencies
           Sample.clustered 0 Sample.wordcloud Sample.common_words H).
Defined.

(** X6, on cluster 0 of the sample frame, which has sixteen distinct words. *)
Lemma common_words_are_the_most_frequent_run :
  generate_wordcloud Sample.generate_from_frequencies Sample.clustered 0
  = Ok (Sample.wordcloud, Sample.common_words) /\
  (length Sample.common_words <= 10 /\
   StronglySorted count_ge Sample.common_words /\
   (forall w, 1 <= cluster_occurrences Sample.clustered 0 w ->
              In w (keys Sample.common_words) \/
              (length Sample.common_words = 10 /\
               forall u n, In (u, n) Sample.common_words ->
                           cluster_occurrences Sample.clustered 0 w <= n))).
Proof.
  assert (H : generate_wordcloud Sample.generate_from_frequencies Sample.clustered 0
              = Ok (Sample.wordcloud, Sample.common_words))
    by (vm_compute; reflexivity).
  split; [exact H|].
  exact (common_words_are_the_most_frequent Py.counter Sample.generate_from_frequencies
           Sample.clustered 0 Sample.wordcloud Sample.common_words H).
Defined.

(** X8, on the four-row matrix: the trials for k = 2 and k = 3 run through,
    the scorer refuses the labelling for k = 4, and that is what
    [find_optimal_clusters] raises. *)
Lemma selection_raises_the_first_failure_run :
  demo_find_optimal_clusters X4 0%nat = (Raise ScorerError, 43%nat) /\
  exists ks1 k ks2,
    K = ks1 ++ k :: ks2 /\
    Forall (fun k' => exists c g1,
              find_optimal_trial demo_seed demo_draw Silhouette.score X4 k' 0%nat
              = (Ok c, g1)) ks1 /\
    find_optimal_trial demo_seed demo_draw Silhouette.score X4 k 0%nat
    = (Raise ScorerError, 43%nat).
Proof.
  assert (H : demo_find_optimal_clusters X4 0%nat = (Raise ScorerError, 43%nat))
    by (vm_compute; reflexivity).
  split; [exact H|].
  exact (selection_raises_the_first_failure demo_rng demo_seed demo_draw Silhouette.score
           X4 0%nat 43%nat ScorerError H).
Defined.

(** X9, on the six-row matrix. *)
Lemma selection_needs_ten_rows_run :
  exists e g', demo_find_optimal_clusters X6 0%nat = (Raise e, g').
Proof.
  apply (selection_needs_ten_rows demo_rng demo_seed demo_draw Silhouette.score X6 0%nat).
  cbn. lia.
Defined.

(** X10, on the matrix with repeated rows and two clusters. *)
Lemma clustering_requires_valid_input_run :
  demo_perform_clustering Xd 2%Z 0%nat = (Ok [0; 1; 0; 1; 0], 43%nat) /\
  (Xd <> [] /\ (0 < ncols Xd)%nat /\ Sk.all_finite Xd = true /\
   (1 <= 2 <= Z.of_nat (length Xd))%Z).
Proof.
  assert (H : demo_perform_clustering Xd 2%Z 0%nat = (Ok [0; 1; 0; 1; 0], 43%nat))
    by (vm_compute; reflexivity).
  split; [exact H|].
  exact (clustering_requires_valid_input demo_rng demo_seed demo_draw
           Xd 2%Z 0%nat 43%nat [0; 1; 0; 1; 0] demo_draw_ok H).
Defined.

(** X11, on the same run: rows 1 and 3 are equal. *)
Lemma equal_rows_get_equal_labels_run :
  demo_perform_clustering Xd 2%Z 0%nat = (Ok [0; 1; 0; 1; 0], 43%nat) /\
  exists l, nth_error [0; 1; 0; 1; 0] 1 = Some l /\ nth_error [0; 1; 0; 1; 0] 3 = Some l.
Proof.
  assert (H : demo_perform_clustering Xd 2%Z 0%nat = (Ok [0; 1; 0; 1; 0], 43%nat))
    by (vm_compute; reflexivity).
  split; [exact H|].
  apply (equal_rows_get_equal_labels demo_rng demo_seed demo_draw
           Xd 2%Z 0%nat 43%nat [0; 1; 0; 1; 0] 1 3 [0; 1]%float H);
    reflexivity.
Defined.

(** X12, on two identical rows with two clusters. *)
Lemma equal_rows_cannot_be_split_run :
  exists e,
    fst (demo_perform_clustering X2 2%Z 0%nat) = Raise e /\
    (e = NonFiniteInput \/ e = EmptyArray).
Proof.
  apply (equal_rows_cannot_be_split demo_rng demo_seed demo_draw
           X2 [1; 0]%float 2%Z 0%nat demo_draw_ok).
  - repeat constructor.
  - cbn. lia.
Defined.

(** X13, on the eleven-row matrix and a frame of eleven articles. *)
Lemma select_and_cluster_succeeds_run :
  exists labels g2,
    select_and_cluster demo_seed demo_draw Silhouette.score X11 0%nat
    = (Ok (2%Z, labels), g2) /\
    (2 <= 2 <= 10)%Z /\
    10 <= length X11 /\
    length labels = length X11 /\
    Forall (fun l => (Z.of_nat l < 2)%Z) labels /\
    assign_clusters Sample.frame11 labels = Some (combine Sample.frame11 labels).
Proof.
  apply (select_and_cluster_succeeds demo_rng demo_seed demo_draw Silhouette.score
           X11 0%nat 43%nat 2%Z Sample.frame11 demo_draw_ok).
  - vm_compute. reflexivity.
  - reflexivity.
Defined.

End MoreRuns.
